(** * Gaussian_poolOrNot.c: Bayesian evidence for one or two Gaussian components

    A shallow embedding of [Gaussian_poolOrNot.c].  The C functions read and
    write global variables (the data buffer, the three quantile tables, the
    random generator hidden behind [GSLfun]) and print to standard output; here
    they are computations in a state monad over a record of those globals.

    The arithmetic of C's [double] is an interface, [DoubleOps], with two
    instances: the binary64 floats of the kernel (IEEE 754, executable), which
    are the program's [double], and the real numbers (exact arithmetic, an
    idealisation without rounding, overflow or NaN).  The program is written
    once, over any instance; loops keep the order of the C loops, so the
    equations proved for an arbitrary instance hold for both.  Statements
    about rounding-sensitive values (signs, finiteness, infinities) are made
    on binary64.

    GSLfun.h and GSLfun.c are not among the sources: the deviate generators,
    the density and the quantile functions are parameters of the development
    ([GSLfun]), and [sigma_of_precision] is taken from the specification.
    [data_print] is never called by [main] and is left out. *)

From Stdlib Require Import Reals Lra Lia List ZArith NArith String Ascii Bool.
From Stdlib Require PrimFloat Uint63.
From Stdlib Require Import DecimalString DecimalN.
From Stdlib Require FloatAxioms SpecFloat.
From stdpp Require Import base list.
Import ListNotations.

(* ================================================================== *)
(** * Part I: definitions *)
(* ================================================================== *)

(** ** Arithmetic of [double] *)

Class DoubleOps (D : Type) : Type := {
  d0 : D;                        (* 0.0 *)
  d1 : D;                        (* 1.0, also the int 1 converted *)
  dhalf : D;                     (* 0.5 *)
  dadd : D -> D -> D;
  dsub : D -> D -> D;
  dmul : D -> D -> D;
  ddiv : D -> D -> D;
  dsqrt : D -> D;
  dlt : D -> D -> bool;          (* x < y; the C test a > b is dlt b a *)
  double_of_uint : N -> D        (* the conversion (double) of an unsigned *)
}.

Declare Scope double_scope.
Delimit Scope double_scope with D.
Notation "x + y" := (dadd x y) : double_scope.
Notation "x - y" := (dsub x y) : double_scope.
Notation "x * y" := (dmul x y) : double_scope.
Notation "x / y" := (ddiv x y) : double_scope.

(** Exact arithmetic: [double] read as a real number.  There is no rounding
    and no overflow, and division by zero gives 0 where binary64 gives an
    infinity or NaN. *)
#[export] Instance R_DoubleOps : DoubleOps R := {|
  d0 := 0%R;
  d1 := 1%R;
  dhalf := (/ 2)%R;
  dadd := Rplus;
  dsub := Rminus;
  dmul := Rmult;
  ddiv := Rdiv;
  dsqrt := sqrt;
  dlt := fun x y => if Rlt_dec x y then true else false;
  double_of_uint := fun n => IZR (Z.of_N n)
|}.

(** IEEE 754 binary64: [double] as the hardware has it. *)
#[export] Instance float_DoubleOps : DoubleOps PrimFloat.float := {|
  d0 := PrimFloat.zero;
  d1 := PrimFloat.one;
  dhalf := PrimFloat.div PrimFloat.one PrimFloat.two;
  dadd := PrimFloat.add;
  dsub := PrimFloat.sub;
  dmul := PrimFloat.mul;
  ddiv := PrimFloat.div;
  dsqrt := PrimFloat.sqrt;
  dlt := PrimFloat.ltb;
  double_of_uint := fun n => PrimFloat.of_uint63 (Uint63.of_Z (Z.of_N n))
|}.

Definition double_of_nat {D} `{DoubleOps D} (i : nat) : D :=
  double_of_uint (N.of_nat i).

(** A float that is neither infinite nor NaN and is greater than zero. *)
Definition float_positive_finite (x : PrimFloat.float) : bool :=
  PrimFloat.ltb PrimFloat.zero x && PrimFloat.ltb x PrimFloat.infinity.

(** ** Parameter records *)

(** [Gauss_params] is declared in GSLfun.h; its two fields are initialised
    positionally as {mu, sigma} and read as [.mu] and [.sigma] in this file. *)
Record Gauss_params (D : Type) : Type := mkGauss { mu : D; sigma : D }.
Arguments mkGauss {D} _ _.
Arguments mu {D} _.
Arguments sigma {D} _.

Record Gauss_mixture_params (D : Type) : Type := mkMixture {
  mixCof : D;
  Gauss1 : Gauss_params D;
  Gauss2 : Gauss_params D
}.
Arguments mkMixture {D} _ _ _.
Arguments mixCof {D} _.
Arguments Gauss1 {D} _.
Arguments Gauss2 {D} _.

Inductive modelNames : Type := POOLED | DIFFER.

(** ** The collaborators behind GSLfun.h

    The deviate generators, the density and the quantile functions live in
    GSLfun.c and in the GSL library.  A deviate generator reads and advances
    the state [rng] of the generator that [GSLfun_setup] seeds. *)
Class GSLfun (D : Type) : Type := {
  rng : Type;
  GSLfun_setup : rng;
  GSLfun_ran_gaussian : Gauss_params D -> rng -> D * rng;
  GSLfun_ran_gamma : D -> D -> rng -> D * rng;
  GSLfun_ran_beta_Jeffreys : rng -> D * rng;
  gsl_ran_flat01 : rng -> D * rng;
  GSLfun_ran_gaussian_pdf : D -> Gauss_params D -> D;
  gsl_cdf_gaussian_Pinv : D -> D -> D;
  gsl_cdf_gamma_Pinv : D -> D -> D -> D;
  gsl_cdf_beta_Pinv : D -> D -> D -> D
}.

(** Modelled from the spec: [sigma_of_precision] is defined in GSLfun.c, which
    is not among the sources; the specification gives it as
    scale = 1/sqrt(precision). *)
Definition sigma_of_precision {D} `{DoubleOps D} (precision : D) : D :=
  (d1 / dsqrt precision)%D.

(** ** Unsigned 32-bit counters *)

Definition uint_modulus : N := 4294967296.

Definition uint_incr (c : N) : N := ((c + 1) mod uint_modulus)%N.

Definition uint_sub (a b : N) : N := ((a + uint_modulus - b) mod uint_modulus)%N.

(** An [int] stored into a [uint]. *)
Definition uint_of_int (z : Z) : N := Z.to_N (z mod Z.of_N uint_modulus).

(** A [uint] printed with [%d]. *)
Definition int_of_uint (n : N) : Z :=
  if (n <? 2147483648)%N then Z.of_N n else (Z.of_N n - Z.of_N uint_modulus)%Z.

(** ** atoi

    As in the C library the program is linked with (glibc, 64-bit [long]):
    [atoi (s)] is [(int) strtol (s, NULL, 10)].  [strtol] skips white space,
    reads an optional sign and the decimal digits that follow (anything after
    the digits is ignored, no digit at all gives 0), and saturates at
    [LONG_MAX] and [LONG_MIN]; the conversion to [int] keeps the low 32
    bits. *)

Definition isspace (c : ascii) : bool :=
  let n := nat_of_ascii c in
  (n =? 32)%nat || ((9 <=? n)%nat && (n <=? 13)%nat).

Definition digit_of (c : ascii) : option Z :=
  let n := Z.of_nat (nat_of_ascii c) in
  if ((48 <=? n) && (n <=? 57))%Z then Some (n - 48)%Z else None.

Fixpoint skip_space (s : string) : string :=
  match s with
  | String c s' => if isspace c then skip_space s' else s
  | EmptyString => s
  end.

Fixpoint digits_value (s : string) (acc : Z) : Z :=
  match s with
  | String c s' =>
      match digit_of c with
      | Some d => digits_value s' (10 * acc + d)%Z
      | None => acc
      end
  | EmptyString => acc
  end.

Definition LONG_MAX : Z := 9223372036854775807.
Definition LONG_MIN : Z := (-9223372036854775808)%Z.

Definition strtol (s : string) : Z :=
  let value :=
    match skip_space s with
    | String "-"%char s' => (- digits_value s' 0)%Z
    | String "+"%char s' => digits_value s' 0
    | s' => digits_value s' 0
    end in
  Z.max LONG_MIN (Z.min LONG_MAX value).

(** The conversion of a [long] to [int]. *)
Definition int_of_long (z : Z) : Z :=
  ((z + 2147483648) mod 4294967296 - 2147483648)%Z.

Definition atoi (s : string) : Z := int_of_long (strtol s).

(** ** Command line *)

Inductive Parsed : Type :=
| Proceed (datasets_n : N)
| UsageExit (prog : string).

(** The [switch( argc )] at the head of [main]; [argc] is the length of
    [argv]. *)
Definition parse_args (argv : list string) : Parsed :=
  match argv with
  | [_] => Proceed 10
  | [prog; arg] =>
      let datasets_n := uint_of_int (atoi arg) in
      if (datasets_n =? 0)%N then UsageExit prog else Proceed datasets_n
  | _ => UsageExit (hd EmptyString argv)
  end.

Section Program.

Context {D : Type} {ops : DoubleOps D} {gsl : GSLfun D}.

Local Open Scope double_scope.

(** ** Global constants

    The macros are array sizes; [cdf_Gauss_n], [cdf_gamma_n] and [cdf_JBeta_n]
    are the [const double] copies that the loops and the divisions use.  A
    loop [for( uint i= 0; i < cdf_Gauss_n; ++i )] compares [i] with 20.0 and so
    runs for i = 0, ..., CDF_GAUSS_N - 1. *)

Definition DATA_N : nat := 40.
Definition CDF_GAUSS_N : nat := 20.
Definition CDF_GAMMA_N : nat := 10.
Definition CDF_JBETA_N : nat := 40.

Definition mu_prior_params : Gauss_params D := mkGauss d0 (double_of_uint 4).
Definition sigma_prior_param_a : D := dhalf.
Definition sigma_prior_param_b : D := double_of_uint 2.

Definition dataN : nat := DATA_N.
Definition sampleRepeatNum : N := 2000000.

Definition cdf_Gauss_n : D := double_of_nat CDF_GAUSS_N.
Definition cdf_gamma_n : D := double_of_nat CDF_GAMMA_N.
Definition cdf_JBeta_n : D := double_of_nat CDF_JBETA_N.

(** ** Standard output, one event per [printf] *)

Inductive Family : Type := BySampling | BySumming.

Inductive Output : Type :=
| OUsage (prog : string)
| OStarting (datasets_n : Z)
| OHeader (generated_with : modelNames)
| OGenerating1 (model_params : Gauss_params D)
| OGenerating2 (model_params : Gauss_mixture_params D)
| OIntegrals (prob_data1_bySampling prob_data2_bySampling
              prob_data1_bySumming prob_data2_bySumming : D)
| OCorrect (family : Family) (model : modelNames) (correct datasets_n : N).

(** ** Program state: the globals *)

Record State : Type := mkState {
  data : list D;             (* double data[DATA_N] *)
  cdfInv_Gauss : list D;     (* double cdfInv_Gauss[CDF_GAUSS_N] *)
  cdfInv_gamma : list D;     (* double cdfInv_gamma[CDF_GAMMA_N] *)
  cdfInv_JBeta : list D;     (* double cdfInv_JBeta[CDF_JBETA_N] *)
  gen : rng;                 (* the generator inside GSLfun *)
  out : list Output          (* what has been printed *)
}.

Definition set_data (st : State) (v : list D) : State :=
  mkState v (cdfInv_Gauss st) (cdfInv_gamma st) (cdfInv_JBeta st) (gen st) (out st).
Definition set_cdfInv_Gauss (st : State) (v : list D) : State :=
  mkState (data st) v (cdfInv_gamma st) (cdfInv_JBeta st) (gen st) (out st).
Definition set_cdfInv_gamma (st : State) (v : list D) : State :=
  mkState (data st) (cdfInv_Gauss st) v (cdfInv_JBeta st) (gen st) (out st).
Definition set_cdfInv_JBeta (st : State) (v : list D) : State :=
  mkState (data st) (cdfInv_Gauss st) (cdfInv_gamma st) v (gen st) (out st).
Definition set_gen (st : State) (g : rng) : State :=
  mkState (data st) (cdfInv_Gauss st) (cdfInv_gamma st) (cdfInv_JBeta st) g (out st).
Definition set_out (st : State) (o : list Output) : State :=
  mkState (data st) (cdfInv_Gauss st) (cdfInv_gamma st) (cdfInv_JBeta st) (gen st) o.

(** Every array has the size of its declaration.  All indices of the program
    are below these sizes, so no store falls outside its array. *)
Definition wf_state (st : State) : Prop :=
  length (data st) = DATA_N /\
  length (cdfInv_Gauss st) = CDF_GAUSS_N /\
  length (cdfInv_gamma st) = CDF_GAMMA_N /\
  length (cdfInv_JBeta st) = CDF_JBETA_N.

(** Globals are zero-initialised; [main] seeds the generator before any draw. *)
Definition init_state : State :=
  mkState (repeat d0 DATA_N) (repeat d0 CDF_GAUSS_N) (repeat d0 CDF_GAMMA_N)
          (repeat d0 CDF_JBETA_N) GSLfun_setup [].

(** ** The state monad *)

Definition M (A : Type) : Type := State -> A * State.

Definition ret {A} (a : A) : M A := fun st => (a, st).

Definition bind {A B} (c : M A) (k : A -> M B) : M B :=
  fun st => let (a, st') := c st in k a st'.

Notation "x <- c ;; k" := (bind c (fun x => k))
  (at level 100, c at next level, right associativity).
Notation "c ;;; k" := (bind c (fun _ => k))
  (at level 100, right associativity).

Definition gets {A} (f : State -> A) : M A := fun st => (f st, st).

Definition modify (f : State -> State) : M unit := fun st => (tt, f st).

(** [a[i]] for a global array [a]. *)
Definition read (a : State -> list D) (i : nat) : M D :=
  gets (fun st => nth i (a st) d0).

(** One deviate from the generator. *)
Definition draw (f : rng -> D * rng) : M D :=
  fun st => let (v, g) := f (gen st) in (v, set_gen st g).

Definition printf (o : Output) : M unit :=
  modify (fun st => set_out st (out st ++ [o])).

(** [for( uint i= 0; i < n; ++i ) body], the variables the body updates being
    carried in [a]. *)
Fixpoint for_from {A} (k i : nat) (body : nat -> A -> M A) (a : A) : M A :=
  match k with
  | O => ret a
  | S k' => a' <- body i a ;; for_from k' (S i) body a'
  end.

Definition for_ {A} (n : nat) (body : nat -> A -> M A) (a : A) : M A :=
  for_from n 0 body a.

(** ** Sampling and generating data *)

Definition prior_Gauss_params_sample : M (Gauss_params D) :=
  p_mu <- draw (GSLfun_ran_gaussian mu_prior_params) ;;
  precision <- draw (GSLfun_ran_gamma sigma_prior_param_a sigma_prior_param_b) ;;
  ret (mkGauss p_mu (sigma_of_precision precision)).

Definition prior_Gauss_mixture_params_sample : M (Gauss_mixture_params D) :=
  p_mixCof <- draw GSLfun_ran_beta_Jeffreys ;;
  p_Gauss1 <- prior_Gauss_params_sample ;;
  p_Gauss2 <- prior_Gauss_params_sample ;;
  ret (mkMixture p_mixCof p_Gauss1 p_Gauss2).

Definition data_generate_1component (params : Gauss_params D) : M unit :=
  for_ dataN (fun i _ =>
    x <- draw (GSLfun_ran_gaussian params) ;;
    modify (fun st => set_data st (<[i := x]> (data st)))) tt.

Definition data_generate_2component (params : Gauss_mixture_params D) : M unit :=
  for_ dataN (fun i _ =>
    u <- draw gsl_ran_flat01 ;;
    x <- draw (GSLfun_ran_gaussian
                 (if dlt u (mixCof params) then Gauss1 params else Gauss2 params)) ;;
    modify (fun st => set_data st (<[i := x]> (data st)))) tt.

(** ** Numerical integration *)

Definition cdfInv_precompute : M unit :=
  for_ CDF_GAUSS_N (fun i _ =>
    let x := double_of_nat (i + 1) / (d1 + cdf_Gauss_n) in
    modify (fun st => set_cdfInv_Gauss st
      (<[i := gsl_cdf_gaussian_Pinv x (sigma mu_prior_params)]> (cdfInv_Gauss st)))) tt ;;;
  for_ CDF_GAMMA_N (fun i _ =>
    let x := double_of_nat i / cdf_gamma_n in
    modify (fun st => set_cdfInv_gamma st
      (<[i := gsl_cdf_gamma_Pinv x sigma_prior_param_a sigma_prior_param_b]>
         (cdfInv_gamma st)))) tt ;;;
  for_ CDF_JBETA_N (fun i _ =>
    let x := dhalf * double_of_nat i / cdf_JBeta_n in
    modify (fun st => set_cdfInv_JBeta st
      (<[i := gsl_cdf_beta_Pinv x dhalf dhalf]> (cdfInv_JBeta st)))) tt.

Definition data_prob_1component_bySumming : M D :=
  prob_total <-
    for_ CDF_GAUSS_N (fun m prob_total =>
      p_mu <- read cdfInv_Gauss m ;;
      for_ CDF_GAMMA_N (fun s prob_total =>
        precision <- read cdfInv_gamma s ;;
        let cur_params := mkGauss p_mu (sigma_of_precision precision) in
        curProb <-
          for_ dataN (fun d curProb =>
            x <- read data d ;;
            let newProb := GSLfun_ran_gaussian_pdf x cur_params in
            ret (curProb * newProb)) d1 ;;
        ret (prob_total + curProb)) prob_total) d0 ;;
  ret (prob_total / (cdf_Gauss_n * cdf_gamma_n)).

(** The [newProb] of the innermost loop of [data_prob_2component_bySumming]. *)
Definition newProb_bySumming (p_mixCof x : D) (cur_params1 cur_params2 : Gauss_params D) : D :=
  p_mixCof * GSLfun_ran_gaussian_pdf x cur_params1
  + (d1 - p_mixCof) * GSLfun_ran_gaussian_pdf x cur_params2.

Definition data_prob_2component_bySumming : M D :=
  prob_total <-
    for_ CDF_GAUSS_N (fun m1 prob_total =>
      mu1 <- read cdfInv_Gauss m1 ;;
      for_ CDF_GAUSS_N (fun m2 prob_total =>
        mu2 <- read cdfInv_Gauss m2 ;;
        for_ CDF_GAMMA_N (fun s1 prob_total =>
          precision1 <- read cdfInv_gamma s1 ;;
          let cur_params1 := mkGauss mu1 (sigma_of_precision precision1) in
          for_ CDF_GAMMA_N (fun s2 prob_total =>
            precision2 <- read cdfInv_gamma s2 ;;
            let cur_params2 := mkGauss mu2 (sigma_of_precision precision2) in
            for_ CDF_JBETA_N (fun mi prob_total =>
              p_mixCof <- read cdfInv_JBeta mi ;;
              curProb <-
                for_ dataN (fun d curProb =>
                  x <- read data d ;;
                  let newProb := newProb_bySumming p_mixCof x cur_params1 cur_params2 in
                  ret (curProb * newProb)) d1 ;;
              ret (prob_total + curProb)) prob_total) prob_total) prob_total)
        prob_total) d0 ;;
  ret (prob_total /
       (cdf_Gauss_n * cdf_Gauss_n * cdf_gamma_n * cdf_gamma_n * cdf_JBeta_n)).

Definition data_prob_1component_bySampling : M D :=
  prob_total <-
    for_ (N.to_nat sampleRepeatNum) (fun iter prob_total =>
      params <- prior_Gauss_params_sample ;;
      curProb <-
        for_ dataN (fun d curProb =>
          x <- read data d ;;
          ret (curProb * GSLfun_ran_gaussian_pdf x params)) d1 ;;
      ret (prob_total + curProb)) d0 ;;
  ret (prob_total / double_of_uint sampleRepeatNum).

(** The [newProb] of the inner loop of [data_prob_2component_bySampling]. *)
Definition newProb_bySampling (params : Gauss_mixture_params D) (x : D) : D :=
  (d1 - mixCof params) * GSLfun_ran_gaussian_pdf x (Gauss2 params)
  + mixCof params * GSLfun_ran_gaussian_pdf x (Gauss1 params).

Definition data_prob_2component_bySampling : M D :=
  prob_total <-
    for_ (N.to_nat sampleRepeatNum) (fun iter prob_total =>
      params <- prior_Gauss_mixture_params_sample ;;
      curProb <-
        for_ dataN (fun i curProb =>
          x <- read data i ;;
          let newProb := newProb_bySampling params x in
          ret (curProb * newProb)) d1 ;;
      ret (prob_total + curProb)) d0 ;;
  ret (prob_total / double_of_uint sampleRepeatNum).

(** ** The experiment driver *)

Record Estimates : Type := mkEstimates {
  prob_data1_bySampling : D;
  prob_data2_bySampling : D;
  prob_data1_bySumming : D;
  prob_data2_bySumming : D
}.

(** The four estimates of one trial and the line that prints them. *)
Definition evidence_estimates : M Estimates :=
  p1_sampling <- data_prob_1component_bySampling ;;
  p2_sampling <- data_prob_2component_bySampling ;;
  p1_summing <- data_prob_1component_bySumming ;;
  p2_summing <- data_prob_2component_bySumming ;;
  printf (OIntegrals p1_sampling p2_sampling p1_summing p2_summing) ;;;
  ret (mkEstimates p1_sampling p2_sampling p1_summing p2_summing).

(** [prob_data1_bySampling > prob_data2_bySampling] and its sibling. *)
Definition sampling_favors1 (e : Estimates) : bool :=
  dlt (prob_data2_bySampling e) (prob_data1_bySampling e).

Definition summing_favors1 (e : Estimates) : bool :=
  dlt (prob_data2_bySumming e) (prob_data1_bySumming e).

(** The two [if( ... ) ++..._favors1] that end the body of each loop; the
    pair is (sampling counter, summing counter). *)
Definition tally (e : Estimates) (favors1 : N * N) : N * N :=
  (if sampling_favors1 e then uint_incr (fst favors1) else fst favors1,
   if summing_favors1 e then uint_incr (snd favors1) else snd favors1).

Definition trial_1component : M Estimates :=
  model_params <- prior_Gauss_params_sample ;;
  printf (OGenerating1 model_params) ;;;
  data_generate_1component model_params ;;;
  evidence_estimates.

Definition trial_2component : M Estimates :=
  model_params <- prior_Gauss_mixture_params_sample ;;
  printf (OGenerating2 model_params) ;;;
  data_generate_2component model_params ;;;
  evidence_estimates.

(** What [main] does up to its first loop. *)
Definition main_prologue (datasets_n : N) : M unit :=
  cdfInv_precompute ;;;
  printf (OStarting (int_of_uint datasets_n)) ;;;
  printf (OHeader POOLED).

(** The four lines that end the output. *)
Definition main_report (datasets_n : N) (model1 model2 : N * N) : M unit :=
  printf (OCorrect BySampling POOLED (fst model1) datasets_n) ;;;
  printf (OCorrect BySampling DIFFER (uint_sub datasets_n (fst model2)) datasets_n) ;;;
  printf (OCorrect BySumming POOLED (snd model1) datasets_n) ;;;
  printf (OCorrect BySumming DIFFER (uint_sub datasets_n (snd model2)) datasets_n).

(** [main] once its arguments are parsed and the generator is seeded. *)
Definition main_body (datasets_n : N) : M unit :=
  main_prologue datasets_n ;;;
  model1 <- for_ (N.to_nat datasets_n)
              (fun iter favors1 => e <- trial_1component ;; ret (tally e favors1))
              (0%N, 0%N) ;;
  printf (OHeader DIFFER) ;;;
  model2 <- for_ (N.to_nat datasets_n)
              (fun iter favors1 => e <- trial_2component ;; ret (tally e favors1))
              (0%N, 0%N) ;;
  main_report datasets_n model1 model2.

(** The exit status and everything printed. *)
Definition main (argv : list string) : Z * list Output :=
  match parse_args argv with
  | UsageExit prog => (64%Z, [OUsage prog])
  | Proceed datasets_n => (0%Z, out (snd (main_body datasets_n init_state)))
  end.

(** ** What the estimators are compared with *)

(** The probability of a dataset under one Gaussian: the product of the
    densities of its observations. *)
Definition likelihood_1component (xs : list D) (p : Gauss_params D) : D :=
  fold_left (fun prob x => prob * GSLfun_ran_gaussian_pdf x p) xs d1.

(** The mixture density as the specification writes it:
    weight * density(component1) + (1 - weight) * density(component2). *)
Definition mixture_pdf (x : D) (p : Gauss_mixture_params D) : D :=
  mixCof p * GSLfun_ran_gaussian_pdf x (Gauss1 p)
  + (d1 - mixCof p) * GSLfun_ran_gaussian_pdf x (Gauss2 p).

Definition likelihood_2component (xs : list D) (p : Gauss_mixture_params D) : D :=
  fold_left (fun prob x => prob * mixture_pdf x p) xs d1.

(** The same product with each factor written as the sampling estimator
    writes it. *)
Definition likelihood_2component_bySampling
    (xs : list D) (p : Gauss_mixture_params D) : D :=
  fold_left (fun prob x => prob * newProb_bySampling p x) xs d1.

(** The sum of [f] over a list of cells, taken from the left. *)
Definition total {P : Type} (f : P -> D) (cells : list P) : D :=
  fold_left (fun acc c => acc + f c) cells d0.

Definition mean_grid (st : State) : list D := cdfInv_Gauss st.
Definition scale_grid (st : State) : list D := map sigma_of_precision (cdfInv_gamma st).
Definition weight_grid (st : State) : list D := cdfInv_JBeta st.

(** The cross-product of the mean grid and the scale grid. *)
Definition cells_1component (st : State) : list (Gauss_params D) :=
  map (fun c => mkGauss (fst c) (snd c))
      (list_prod (mean_grid st) (scale_grid st)).

(** The cross-product (mean1, mean2, scale1, scale2, weight). *)
Definition cells_2component (st : State) : list (Gauss_mixture_params D) :=
  map (fun c =>
         match c with
         | (mu1, (mu2, (sigma1, (sigma2, w)))) =>
             mkMixture w (mkGauss mu1 sigma1) (mkGauss mu2 sigma2)
         end)
      (list_prod (mean_grid st)
         (list_prod (mean_grid st)
            (list_prod (scale_grid st)
               (list_prod (scale_grid st) (weight_grid st))))).

(** The probabilities at which the three quantile functions are evaluated,
    and the grids of quantiles. *)
Definition Gauss_probability (i : nat) : D := double_of_nat (i + 1) / (d1 + cdf_Gauss_n).
Definition gamma_probability (i : nat) : D := double_of_nat i / cdf_gamma_n.
Definition JBeta_probability (i : nat) : D := dhalf * double_of_nat i / cdf_JBeta_n.

Definition Gauss_quantiles : list D :=
  map (fun i => gsl_cdf_gaussian_Pinv (Gauss_probability i) (sigma mu_prior_params))
      (seq 0 CDF_GAUSS_N).

Definition gamma_quantiles : list D :=
  map (fun i => gsl_cdf_gamma_Pinv (gamma_probability i)
                  sigma_prior_param_a sigma_prior_param_b)
      (seq 0 CDF_GAMMA_N).

Definition JBeta_quantiles : list D :=
  map (fun i => gsl_cdf_beta_Pinv (JBeta_probability i) dhalf dhalf)
      (seq 0 CDF_JBETA_N).

(** [n] successive runs of [c], their results in order. *)
Fixpoint repeatM {A} (n : nat) (c : M A) : M (list A) :=
  match n with
  | O => ret []
  | S k => a <- c ;; rest <- repeatM k c ;; ret (a :: rest)
  end.

(** How many trials of a list satisfy a test. *)
Definition count_trials (f : Estimates -> bool) (es : list Estimates) : N :=
  N.of_nat (length (List.filter f es)).


(** A correct selection as the driver counts it: a trial favors the
    one-component model when its estimate is the higher one, and the
    two-component model otherwise. *)
Definition favors1 (family : Family) (e : Estimates) : bool :=
  match family with
  | BySampling => sampling_favors1 e
  | BySumming => summing_favors1 e
  end.

Definition recorded_correct (truth : modelNames) (family : Family) (e : Estimates) : bool :=
  match truth with
  | POOLED => favors1 family e
  | DIFFER => negb (favors1 family e)
  end.

(** ** Summaries of the data *)

Definition data_sample_mean : M D :=
  mean <- for_ dataN (fun i mean => x <- read data i ;; ret (mean + x)) d0 ;;
  ret (mean / double_of_nat dataN).

Definition data_sample_variance : M D :=
  mean <- data_sample_mean ;;
  var <- for_ dataN (fun i var =>
           x <- read data i ;;
           let diff := x - mean in
           ret (var + diff * diff)) d0 ;;
  ret (var / double_of_nat dataN).

(** The comparison handed to [qsort], on the two doubles its arguments point
    to. *)
Definition CMPdata (arg1 arg2 : D) : Z :=
  if dlt arg1 arg2 then (-1)%Z
  else if dlt arg2 arg1 then 1%Z
  else 0%Z.

(** One observation of the two-component generator, as the body of the loop
    of [data_generate_2component] draws it. *)
Definition mixture_draw (params : Gauss_mixture_params D) : M D :=
  u <- draw gsl_ran_flat01 ;;
  draw (GSLfun_ran_gaussian
          (if dlt u (mixCof params) then Gauss1 params else Gauss2 params)).

(** ** Relations between states *)

(** Two states that differ at most in the generator. *)
Definition same_but_gen (st st' : State) : Prop := st' = set_gen st (gen st').

(** Two states that differ at most in the generator and in the contents of
    the data buffer. *)
Definition same_tables (st st' : State) : Prop :=
  length (data st') = length (data st) /\
  cdfInv_Gauss st' = cdfInv_Gauss st /\
  cdfInv_gamma st' = cdfInv_gamma st /\
  cdfInv_JBeta st' = cdfInv_JBeta st /\
  out st' = out st.

(** A computation whose result and whose effect on the generator depend on
    the generator only. *)
Definition reads_gen {A} (c : M A) : Prop :=
  forall st st', gen st = gen st' ->
    fst (c st) = fst (c st') /\ gen (snd (c st)) = gen (snd (c st')).

End Program.

Arguments State D {gsl}.
Arguments M D {gsl} A.
Arguments Output D : clear implicits.
Arguments Estimates D : clear implicits.

Notation "x <- c ;; k" := (bind c (fun x => k))
  (at level 100, c at next level, right associativity).
Notation "c ;;; k" := (bind c (fun _ => k))
  (at level 100, right associativity).

(** ** A test double for the collaborators

    The generator counts the deviates it has handed out.  Every deviate is a
    fixed central value of its distribution, every density has underflowed to
    zero, and each quantile function is that of the uniform distribution on
    [0,1), the identity; like the Gamma and Beta quantile functions of GSL it
    gives 0 at probability 0. *)
Definition gsl_double {D} `{DoubleOps D} : GSLfun D := {|
  rng := N;
  GSLfun_setup := 0%N;
  GSLfun_ran_gaussian := fun p g => (mu p, N.succ g);
  GSLfun_ran_gamma := fun _ _ g => (d1, N.succ g);
  GSLfun_ran_beta_Jeffreys := fun g => (dhalf, N.succ g);
  gsl_ran_flat01 := fun g => (d0, N.succ g);
  GSLfun_ran_gaussian_pdf := fun _ _ => d0;
  gsl_cdf_gaussian_Pinv := fun x _ => x;
  gsl_cdf_gamma_Pinv := fun x _ _ => x;
  gsl_cdf_beta_Pinv := fun x _ _ => x
|}.

(* ================================================================== *)
(** * Part II: lemmas and theorems *)
(* ================================================================== *)

(** ** Lists: loops over indices, nested loops, arrays filled in order *)

Lemma fold_left_pointwise {A B} (f g : A -> B -> A) (l : list B) (a : A) :
  (forall a x, f a x = g a x) -> fold_left f l a = fold_left g l a.
Proof.
  intros Hfg. revert a.
  induction l as [|x l IH]; intros a; simpl; [reflexivity|].
  rewrite Hfg. apply IH.
Qed.

Lemma fold_left_through_map {A B C} (f : A -> C -> A) (g : B -> C) (l : list B) (a : A) :
  fold_left f (map g l) a = fold_left (fun a x => f a (g x)) l a.
Proof.
  revert a. induction l as [|x l IH]; intros a; simpl; [reflexivity|apply IH].
Qed.

(** Reading [l] at the indices 0, 1, ..., in order, visits [l]. *)
Lemma map_nth_indices {B} (d : B) (l : list B) :
  map (fun j => nth j l d) (seq 0 (length l)) = l.
Proof.
  apply (nth_ext _ _ d d).
  - rewrite length_map, length_seq. reflexivity.
  - intros n Hn. rewrite length_map, length_seq in Hn.
    rewrite (nth_indep _ d (nth 0 l d)) by (rewrite length_map, length_seq; exact Hn).
    rewrite (map_nth (fun j => nth j l d) (seq 0 (length l)) 0 n).
    rewrite seq_nth by exact Hn. reflexivity.
Qed.

Lemma fold_left_indices {A B} (d : B) (f : A -> B -> A) (l : list B) (a : A) :
  fold_left (fun a j => f a (nth j l d)) (seq 0 (length l)) a = fold_left f l a.
Proof.
  rewrite <- (fold_left_through_map f (fun j => nth j l d)).
  rewrite map_nth_indices. reflexivity.
Qed.

(** Two nested loops visit the cross-product, row by row. *)
Lemma fold_left_list_prod {A B C} (f : A -> B * C -> A) (l1 : list B) (l2 : list C) (a : A) :
  fold_left (fun a x => fold_left (fun a y => f a (x, y)) l2 a) l1 a
  = fold_left f (list_prod l1 l2) a.
Proof.
  revert a. induction l1 as [|x l1 IH]; intros a; simpl; [reflexivity|].
  rewrite fold_left_app, fold_left_through_map. apply IH.
Qed.

Section ArrayFill.

Context {A : Type}.

(** Storing [f j] at each index [j] of a range leaves the length alone. *)
Lemma length_fill (f : nat -> A) (k i : nat) (l : list A) :
  length (fold_left (fun l j => <[j := f j]> l) (seq i k) l) = length l.
Proof.
  revert i l. induction k as [|k IH]; intros i l; simpl; [reflexivity|].
  rewrite IH. apply length_insert.
Qed.

Lemma lookup_fill (f : nat -> A) (k i : nat) (l : list A) (j : nat) :
  i + k <= length l ->
  fold_left (fun l j => <[j := f j]> l) (seq i k) l !! j
  = if decide (i <= j < i + k) then Some (f j) else l !! j.
Proof.
  revert i l. induction k as [|k IH]; intros i l Hlen; simpl.
  - destruct (decide (i <= j < i + 0)) as [Hj|_]; [lia|reflexivity].
  - rewrite IH by (rewrite length_insert; lia).
    destruct (decide (S i <= j < S i + k)) as [Hj|Hj].
    + destruct (decide (i <= j < i + S k)) as [_|Hn]; [reflexivity|lia].
    + destruct (decide (i <= j < i + S k)) as [Hj'|Hj'].
      * assert (j = i) as -> by lia.
        apply list_lookup_insert_eq. lia.
      * apply list_lookup_insert_ne. lia.
Qed.

(** A loop that stores [f j] at every index of an array leaves the array
    [f 0; f 1; ...]. *)
Lemma fill_all (f : nat -> A) (l : list A) :
  fold_left (fun l j => <[j := f j]> l) (seq 0 (length l)) l
  = map f (seq 0 (length l)).
Proof.
  apply list_eq. intros j.
  rewrite lookup_fill by lia.
  destruct (decide (0 <= j < 0 + length l)) as [Hj|Hj].
  - symmetry. rewrite list_lookup_fmap.
    rewrite lookup_seq_lt by lia. reflexivity.
  - rewrite !lookup_ge_None_2; [reflexivity| |lia].
    rewrite length_map, length_seq. lia.
Qed.

End ArrayFill.

(** ** Loops of the program *)

Ltac run := unfold bind, ret, gets, modify, read, printf; simpl.

Lemma proj_fst {A B} (a : A) (b : B) : fst (a, b) = a.
Proof. reflexivity. Qed.

Lemma proj_snd {A B} (a : A) (b : B) : snd (a, b) = b.
Proof. reflexivity. Qed.

(** Projections of explicit pairs, by rewriting: type checking then never has
    to compare a pair with a run of the program. *)
Ltac projections := rewrite ?proj_fst, ?proj_snd.

(** Rewrite with an equation whose implicit arguments are resolved first. *)
Tactic Notation "rewrite_with" constr(H) :=
  let E := fresh "E" in pose proof H as E; rewrite E; clear E.

Section Loops.

Context {D : Type} {ops : DoubleOps D} {gsl : GSLfun D}.

Local Open Scope double_scope.

Lemma bind_run {A B} (c : M D A) (k : A -> M D B) (st : State D) :
  bind c k st = k (fst (c st)) (snd (c st)).
Proof. unfold bind. destruct (c st); reflexivity. Qed.

(** A loop whose body only reads the state is a fold over its indices. *)
Lemma for_from_readonly {A} (g : nat -> A -> A) (body : nat -> A -> M D A) (st : State D) :
  (forall i a, body i a st = (g i a, st)) ->
  forall k i a,
    for_from k i body a st = (fold_left (fun a j => g j a) (seq i k) a, st).
Proof.
  intros Hbody. induction k as [|k IH]; intros i a; simpl.
  - reflexivity.
  - unfold bind. rewrite Hbody. apply IH.
Qed.

(** A loop that reads [l[i]] at each index of the array [l] is a fold over
    [l]. *)
Lemma for_read {A} (l : list D) (h : A -> D -> A) (body : nat -> A -> M D A) (st : State D) :
  (forall i a, body i a st = (h a (nth i l d0), st)) ->
  forall a, for_ (length l) body a st = (fold_left h l a, st).
Proof.
  intros Hbody a. unfold for_.
  rewrite (for_from_readonly (fun i a => h a (nth i l d0))) by exact Hbody.
  rewrite (fold_left_indices d0 h). reflexivity.
Qed.

(** A loop that stores [f i] into the [i]-th element of one global array. *)
Lemma for_from_fill (get : State D -> list D) (set : State D -> list D -> State D)
    (f : nat -> D) :
  (forall st, set st (get st) = st) ->
  (forall st v, get (set st v) = v) ->
  (forall st v w, set (set st v) w = set st w) ->
  forall k i st,
    for_from k i (fun i _ => modify (fun st => set st (<[i := f i]> (get st)))) tt st
    = (tt, set st (fold_left (fun l j => <[j := f j]> l) (seq i k) (get st))).
Proof.
  intros Hid Hget Hset. induction k as [|k IH]; intros i st; simpl.
  - unfold ret. rewrite Hid. reflexivity.
  - run. rewrite IH, Hget, Hset. reflexivity.
Qed.

Lemma for_fill (get : State D -> list D) (set : State D -> list D -> State D)
    (f : nat -> D) (n : nat) (st : State D) :
  (forall st, set st (get st) = st) ->
  (forall st v, get (set st v) = v) ->
  (forall st v w, set (set st v) w = set st w) ->
  length (get st) = n ->
  for_ n (fun i _ => modify (fun st => set st (<[i := f i]> (get st)))) tt st
  = (tt, set st (map f (seq 0 n))).
Proof.
  intros Hid Hget Hset Hlen. unfold for_.
  rewrite (for_from_fill get set f Hid Hget Hset).
  rewrite <- Hlen, fill_all. reflexivity.
Qed.

(** A loop that runs [c] and folds each result into an accumulator, against
    the list of the results of the successive runs. *)
Lemma for_from_accumulate {A P} (c : M D P) (h : A -> P -> A) (k : nat) :
  forall i a st,
    for_from k i (fun _ a => p <- c ;; ret (h a p)) a st
    = (fold_left h (fst (repeatM k c st)) a, snd (repeatM k c st)).
Proof.
  induction k as [|k IH]; intros i a st; simpl.
  - reflexivity.
  - rewrite !bind_run. rewrite IH. unfold ret. reflexivity.
Qed.


(** ** What each operation does to the state *)

Lemma set_data_id (st : State D) : set_data st (data st) = st.
Proof. destruct st; reflexivity. Qed.

Lemma set_cdfInv_Gauss_id (st : State D) : set_cdfInv_Gauss st (cdfInv_Gauss st) = st.
Proof. destruct st; reflexivity. Qed.

Lemma set_cdfInv_gamma_id (st : State D) : set_cdfInv_gamma st (cdfInv_gamma st) = st.
Proof. destruct st; reflexivity. Qed.

Lemma set_cdfInv_JBeta_id (st : State D) : set_cdfInv_JBeta st (cdfInv_JBeta st) = st.
Proof. destruct st; reflexivity. Qed.

Lemma set_gen_id (st : State D) : set_gen st (gen st) = st.
Proof. destruct st; reflexivity. Qed.

Lemma set_gen_set_gen (st : State D) (g g' : rng) :
  set_gen (set_gen st g) g' = set_gen st g'.
Proof. reflexivity. Qed.

Lemma same_but_gen_refl (st : State D) : same_but_gen st st.
Proof. unfold same_but_gen. symmetry. apply set_gen_id. Qed.

Lemma same_but_gen_trans (st1 st2 st3 : State D) :
  same_but_gen st1 st2 -> same_but_gen st2 st3 -> same_but_gen st1 st3.
Proof.
  unfold same_but_gen. intros H12 H23. rewrite H23 at 1. rewrite H12 at 1.
  reflexivity.
Qed.

Lemma same_but_gen_data (st st' : State D) : same_but_gen st st' -> data st' = data st.
Proof. intros ->. reflexivity. Qed.

Lemma same_but_gen_out (st st' : State D) : same_but_gen st st' -> out st' = out st.
Proof. intros ->. reflexivity. Qed.

Lemma wf_state_set_out (st : State D) (o : list (Output D)) :
  wf_state st -> wf_state (set_out st o).
Proof. intros Hwf. exact Hwf. Qed.

Lemma same_but_gen_wf (st st' : State D) :
  same_but_gen st st' -> wf_state st -> wf_state st'.
Proof. intros -> Hwf. exact Hwf. Qed.

Lemma draw_same_but_gen (f : rng -> D * rng) (st : State D) :
  same_but_gen st (snd (draw f st)).
Proof. unfold draw. destruct (f (gen st)) as [v g]. reflexivity. Qed.

Lemma bind_same_but_gen {A B} (c : M D A) (k : A -> M D B) :
  (forall st, same_but_gen st (snd (c st))) ->
  (forall a st, same_but_gen st (snd (k a st))) ->
  forall st, same_but_gen st (snd (bind c k st)).
Proof.
  intros Hc Hk st. unfold bind. specialize (Hc st).
  destruct (c st) as [a st1]. simpl in Hc.
  eapply same_but_gen_trans; [exact Hc|apply Hk].
Qed.

Lemma ret_same_but_gen {A} (a : A) (st : State D) : same_but_gen st (snd (ret a st)).
Proof. apply same_but_gen_refl. Qed.

Lemma prior_Gauss_params_sample_frame (st : State D) :
  same_but_gen st (snd (prior_Gauss_params_sample st)).
Proof.
  revert st. unfold prior_Gauss_params_sample.
  apply bind_same_but_gen; [apply draw_same_but_gen|intros p_mu].
  apply bind_same_but_gen; [apply draw_same_but_gen|intros precision].
  apply ret_same_but_gen.
Qed.

Lemma prior_Gauss_mixture_params_sample_frame (st : State D) :
  same_but_gen st (snd (prior_Gauss_mixture_params_sample st)).
Proof.
  revert st. unfold prior_Gauss_mixture_params_sample.
  apply bind_same_but_gen; [apply draw_same_but_gen|intros w].
  apply bind_same_but_gen; [apply prior_Gauss_params_sample_frame|intros g1].
  apply bind_same_but_gen; [apply prior_Gauss_params_sample_frame|intros g2].
  apply ret_same_but_gen.
Qed.

Lemma repeatM_same_but_gen {A} (c : M D A) (n : nat) :
  (forall st, same_but_gen st (snd (c st))) ->
  forall st, same_but_gen st (snd (repeatM n c st)).
Proof.
  intros Hc. induction n as [|n IH]; simpl.
  - intros st. apply same_but_gen_refl.
  - apply bind_same_but_gen; [exact Hc|intros a].
    apply bind_same_but_gen; [exact IH|intros rest st].
    apply same_but_gen_refl.
Qed.

End Loops.

(** ** The grid builder and the four estimators *)

Section Estimators.

Context {D : Type} {ops : DoubleOps D} {gsl : GSLfun D}.

Local Open Scope double_scope.

Lemma cdfInv_precompute_eq (st : State D) :
  wf_state st ->
  cdfInv_precompute st
  = (tt, mkState (data st) Gauss_quantiles gamma_quantiles JBeta_quantiles
           (gen st) (out st)).
Proof.
  intros (_ & HG & Hg & HB). unfold cdfInv_precompute. cbv zeta.
  pose proof (for_fill cdfInv_Gauss set_cdfInv_Gauss
    (fun i => gsl_cdf_gaussian_Pinv (Gauss_probability i) (sigma mu_prior_params))
    CDF_GAUSS_N) as EG.
  pose proof (for_fill cdfInv_gamma set_cdfInv_gamma
    (fun i => gsl_cdf_gamma_Pinv (gamma_probability i)
                sigma_prior_param_a sigma_prior_param_b)
    CDF_GAMMA_N) as Eg.
  pose proof (for_fill cdfInv_JBeta set_cdfInv_JBeta
    (fun i => gsl_cdf_beta_Pinv (JBeta_probability i) dhalf dhalf)
    CDF_JBETA_N) as EB.
  unfold Gauss_probability in EG. unfold gamma_probability in Eg.
  unfold JBeta_probability in EB.
  rewrite bind_run, EG;
    [|apply set_cdfInv_Gauss_id|reflexivity|reflexivity|exact HG].
  simpl snd. rewrite bind_run, Eg;
    [|apply set_cdfInv_gamma_id|reflexivity|reflexivity|exact Hg].
  simpl snd. rewrite EB;
    [|apply set_cdfInv_JBeta_id|reflexivity|reflexivity|exact HB].
  reflexivity.
Qed.

Lemma cdfInv_precompute_wf (st : State D) :
  wf_state st -> wf_state (snd (cdfInv_precompute st)).
Proof.
  intros Hwf. rewrite cdfInv_precompute_eq by exact Hwf.
  destruct Hwf as (Hd & _). repeat split; try exact Hd;
    simpl; unfold Gauss_quantiles, gamma_quantiles, JBeta_quantiles;
    rewrite length_map, length_seq; reflexivity.
Qed.

(** The innermost loop: the product of the densities of the observations. *)
Lemma product_loop_1component (cur : Gauss_params D) (st : State D) :
  length (data st) = DATA_N ->
  for_ dataN (fun d curProb =>
      x <- read data d ;; ret (curProb * GSLfun_ran_gaussian_pdf x cur)) d1 st
  = (likelihood_1component (data st) cur, st).
Proof.
  intros Hlen. unfold dataN. rewrite <- Hlen.
  apply (for_read (data st) (fun prob x => prob * GSLfun_ran_gaussian_pdf x cur)).
  intros i a. reflexivity.
Qed.

Lemma product_loop_2component (w : D) (cur1 cur2 : Gauss_params D) (st : State D) :
  length (data st) = DATA_N ->
  for_ dataN (fun d curProb =>
      x <- read data d ;; ret (curProb * newProb_bySumming w x cur1 cur2)) d1 st
  = (likelihood_2component (data st) (mkMixture w cur1 cur2), st).
Proof.
  intros Hlen. unfold dataN. rewrite <- Hlen.
  apply (for_read (data st) (fun prob x => prob * newProb_bySumming w x cur1 cur2)).
  intros i a. reflexivity.
Qed.

Lemma product_loop_bySampling (params : Gauss_mixture_params D) (st : State D) :
  length (data st) = DATA_N ->
  for_ dataN (fun i curProb =>
      x <- read data i ;; ret (curProb * newProb_bySampling params x)) d1 st
  = (likelihood_2component_bySampling (data st) params, st).
Proof.
  intros Hlen. unfold dataN. rewrite <- Hlen.
  apply (for_read (data st) (fun prob x => prob * newProb_bySampling params x)).
  intros i a. reflexivity.
Qed.

Lemma data_prob_1component_bySumming_eq (st : State D) :
  wf_state st ->
  data_prob_1component_bySumming st
  = (total (likelihood_1component (data st)) (cells_1component st)
     / (cdf_Gauss_n * cdf_gamma_n), st).
Proof.
  intros (Hd & HG & Hg & _). unfold data_prob_1component_bySumming.
  rewrite bind_run. rewrite <- HG.
  rewrite (for_read (cdfInv_Gauss st)
             (fun acc m => fold_left
                (fun acc prec =>
                   acc + likelihood_1component (data st)
                           (mkGauss m (sigma_of_precision prec)))
                (cdfInv_gamma st) acc)).
  - unfold ret. simpl. f_equal. f_equal.
    unfold total, cells_1component, mean_grid, scale_grid.
    rewrite fold_left_through_map.
    rewrite <- (fold_left_list_prod
      (fun acc c => acc + likelihood_1component (data st) (mkGauss (fst c) (snd c)))).
    apply fold_left_pointwise. intros acc m.
    rewrite fold_left_through_map. reflexivity.
  - intros m acc. rewrite bind_run. simpl fst. simpl snd. rewrite <- Hg.
    apply (for_read (cdfInv_gamma st)
             (fun acc prec => acc + likelihood_1component (data st)
                (mkGauss (nth m (cdfInv_Gauss st) d0) (sigma_of_precision prec)))).
    intros s acc'. rewrite bind_run. simpl fst. simpl snd. rewrite bind_run.
    rewrite product_loop_1component by exact Hd. reflexivity.
Qed.

Lemma data_prob_2component_bySumming_eq (st : State D) :
  wf_state st ->
  data_prob_2component_bySumming st
  = (total (likelihood_2component (data st)) (cells_2component st)
     / (cdf_Gauss_n * cdf_Gauss_n * cdf_gamma_n * cdf_gamma_n * cdf_JBeta_n), st).
Proof.
  intros (Hd & HG & Hg & HB). unfold data_prob_2component_bySumming.
  set (G := cdfInv_Gauss st). set (P := cdfInv_gamma st). set (W := cdfInv_JBeta st).
  set (L := likelihood_2component (data st)).
  set (cell := fun m1 m2 p1 p2 w =>
         mkMixture w (mkGauss m1 (sigma_of_precision p1))
                     (mkGauss m2 (sigma_of_precision p2))).
  rewrite bind_run.
  assert (for_ CDF_GAUSS_N
    (fun m1 prob_total =>
      mu1 <- read cdfInv_Gauss m1 ;;
      for_ CDF_GAUSS_N (fun m2 prob_total =>
        mu2 <- read cdfInv_Gauss m2 ;;
        for_ CDF_GAMMA_N (fun s1 prob_total =>
          precision1 <- read cdfInv_gamma s1 ;;
          for_ CDF_GAMMA_N (fun s2 prob_total =>
            precision2 <- read cdfInv_gamma s2 ;;
            for_ CDF_JBETA_N (fun mi prob_total =>
              p_mixCof <- read cdfInv_JBeta mi ;;
              curProb <-
                for_ dataN (fun d curProb =>
                  x <- read data d ;;
                  ret (curProb * newProb_bySumming p_mixCof x
                         (mkGauss mu1 (sigma_of_precision precision1))
                         (mkGauss mu2 (sigma_of_precision precision2)))) d1 ;;
              ret (prob_total + curProb)) prob_total) prob_total) prob_total)
        prob_total) d0 st
    = (fold_left (fun acc m1 =>
         fold_left (fun acc m2 =>
           fold_left (fun acc p1 =>
             fold_left (fun acc p2 =>
               fold_left (fun acc w => acc + L (cell m1 m2 p1 p2 w)) W acc)
             P acc) P acc) G acc) G d0, st)) as Hloops.
  { rewrite <- HG.
    apply (for_read G (fun acc m1 =>
         fold_left (fun acc m2 =>
           fold_left (fun acc p1 =>
             fold_left (fun acc p2 =>
               fold_left (fun acc w => acc + L (cell m1 m2 p1 p2 w)) W acc)
             P acc) P acc) G acc)).
    intros m1 acc1. rewrite bind_run. simpl fst. simpl snd.
    fold G. generalize (nth m1 G d0). intros mu1.
    replace CDF_GAUSS_N with (length G) by exact HG.
    apply (for_read G (fun acc m2 =>
           fold_left (fun acc p1 =>
             fold_left (fun acc p2 =>
               fold_left (fun acc w => acc + L (cell mu1 m2 p1 p2 w)) W acc)
             P acc) P acc)).
    intros m2 acc2. rewrite bind_run. simpl fst. simpl snd.
    fold G. generalize (nth m2 G d0). intros mu2.
    rewrite <- Hg.
    apply (for_read P (fun acc p1 =>
             fold_left (fun acc p2 =>
               fold_left (fun acc w => acc + L (cell mu1 mu2 p1 p2 w)) W acc)
             P acc)).
    intros s1 acc3. rewrite bind_run. simpl fst. simpl snd.
    fold P. generalize (nth s1 P d0). intros p1.
    replace CDF_GAMMA_N with (length P) by exact Hg.
    apply (for_read P (fun acc p2 =>
               fold_left (fun acc w => acc + L (cell mu1 mu2 p1 p2 w)) W acc)).
    intros s2 acc4. rewrite bind_run. simpl fst. simpl snd.
    fold P. generalize (nth s2 P d0). intros p2.
    rewrite <- HB.
    apply (for_read W (fun acc w => acc + L (cell mu1 mu2 p1 p2 w))).
    intros mi acc5. rewrite bind_run. simpl fst. simpl snd. rewrite bind_run.
    rewrite product_loop_2component by exact Hd. reflexivity. }
  cbv zeta. rewrite Hloops. unfold ret. simpl fst. simpl snd. f_equal. f_equal.
  unfold total, cells_2component, mean_grid, scale_grid, weight_grid.
  fold G P W L.
  rewrite fold_left_through_map.
  rewrite <- fold_left_list_prod.
  apply fold_left_pointwise. intros acc1 m1.
  rewrite <- fold_left_list_prod.
  apply fold_left_pointwise. intros acc2 m2.
  rewrite <- fold_left_list_prod, fold_left_through_map.
  apply fold_left_pointwise. intros acc3 p1.
  rewrite <- fold_left_list_prod, fold_left_through_map.
  apply fold_left_pointwise. intros acc4 p2.
  reflexivity.
Qed.

(** A sampling loop: each round draws [p] from [sample], which moves the
    generator only, and adds [lik (data st) p] to the accumulator. *)
Lemma for_from_sampling {P} (sample : M D P) (inner : P -> M D D) (lik : list D -> P -> D) :
  (forall st, same_but_gen st (snd (sample st))) ->
  (forall p st, length (data st) = DATA_N -> inner p st = (lik (data st) p, st)) ->
  forall k i a st,
    length (data st) = DATA_N ->
    for_from k i (fun _ prob_total =>
        p <- sample ;; curProb <- inner p ;; ret (prob_total + curProb)) a st
    = (fold_left (fun acc p => acc + lik (data st) p) (fst (repeatM k sample st)) a,
       snd (repeatM k sample st)).
Proof.
  intros Hsample Hinner. induction k as [|k IH]; intros i a st Hlen; simpl.
  - reflexivity.
  - pose proof (same_but_gen_data _ _ (Hsample st)) as Hdata.
    rewrite !bind_run. rewrite Hinner by (rewrite Hdata; exact Hlen).
    unfold ret at 1. simpl fst. simpl snd.
    rewrite IH by (rewrite Hdata; exact Hlen).
    rewrite Hdata. unfold ret. reflexivity.
Qed.

Lemma data_prob_1component_bySampling_eq (st : State D) :
  length (data st) = DATA_N ->
  data_prob_1component_bySampling st
  = (total (likelihood_1component (data st))
       (fst (repeatM (N.to_nat sampleRepeatNum) prior_Gauss_params_sample st))
     / double_of_uint sampleRepeatNum,
     snd (repeatM (N.to_nat sampleRepeatNum) prior_Gauss_params_sample st)).
Proof.
  intros Hlen. unfold data_prob_1component_bySampling.
  rewrite bind_run. unfold for_.
  rewrite (for_from_sampling prior_Gauss_params_sample
             (fun params => for_from dataN 0 (fun d curProb =>
                x <- read data d ;;
                ret (curProb * GSLfun_ran_gaussian_pdf x params)) d1)
             likelihood_1component).
  - reflexivity.
  - apply prior_Gauss_params_sample_frame.
  - intros p st' Hlen'. apply product_loop_1component. exact Hlen'.
  - exact Hlen.
Qed.

Lemma data_prob_2component_bySampling_eq (st : State D) :
  length (data st) = DATA_N ->
  data_prob_2component_bySampling st
  = (total (likelihood_2component_bySampling (data st))
       (fst (repeatM (N.to_nat sampleRepeatNum) prior_Gauss_mixture_params_sample st))
     / double_of_uint sampleRepeatNum,
     snd (repeatM (N.to_nat sampleRepeatNum) prior_Gauss_mixture_params_sample st)).
Proof.
  intros Hlen. unfold data_prob_2component_bySampling.
  rewrite bind_run. cbv zeta. unfold for_.
  rewrite (for_from_sampling prior_Gauss_mixture_params_sample
             (fun params => for_from dataN 0 (fun i curProb =>
                x <- read data i ;;
                ret (curProb * newProb_bySampling params x)) d1)
             likelihood_2component_bySampling).
  - reflexivity.
  - apply prior_Gauss_mixture_params_sample_frame.
  - intros p st' Hlen'. apply product_loop_bySampling. exact Hlen'.
  - exact Hlen.
Qed.


(** ** The quadrature estimators read the state and leave it alone *)

Lemma data_prob_1component_bySumming_frame (st : State D) :
  wf_state st -> snd (data_prob_1component_bySumming st) = st.
Proof. intros Hwf. rewrite data_prob_1component_bySumming_eq by exact Hwf. reflexivity. Qed.

Lemma data_prob_2component_bySumming_frame (st : State D) :
  wf_state st -> snd (data_prob_2component_bySumming st) = st.
Proof. intros Hwf. rewrite data_prob_2component_bySumming_eq by exact Hwf. reflexivity. Qed.

(** ** The Monte Carlo estimators move the generator, and nothing else *)

Lemma data_prob_1component_bySampling_frame (st : State D) :
  length (data st) = DATA_N ->
  same_but_gen st (snd (data_prob_1component_bySampling st)).
Proof.
  intros Hlen. rewrite data_prob_1component_bySampling_eq by exact Hlen. cbn [snd].
  apply repeatM_same_but_gen, prior_Gauss_params_sample_frame.
Qed.

Lemma data_prob_2component_bySampling_frame (st : State D) :
  length (data st) = DATA_N ->
  same_but_gen st (snd (data_prob_2component_bySampling st)).
Proof.
  intros Hlen. rewrite data_prob_2component_bySampling_eq by exact Hlen. cbn [snd].
  apply repeatM_same_but_gen, prior_Gauss_mixture_params_sample_frame.
Qed.

(** The results of [repeatM] depend on the state only through what [c]
    reads. *)
Lemma length_repeatM {A} (c : M D A) (n : nat) (st : State D) :
  length (fst (repeatM n c st)) = n.
Proof.
  revert st. induction n as [|n IH]; intros st; simpl; [reflexivity|].
  rewrite !bind_run. unfold ret. simpl. rewrite IH. reflexivity.
Qed.

(** A draw reads the generator only. *)
Lemma draw_reads_gen (f : rng -> D * rng) (st st' : State D) :
  gen st = gen st' ->
  fst (draw f st) = fst (draw f st') /\ gen (snd (draw f st)) = gen (snd (draw f st')).
Proof.
  intros Hg. unfold draw. rewrite Hg. destruct (f (gen st')) as [v g]. split; reflexivity.
Qed.

Lemma reads_gen_draw (f : rng -> D * rng) : reads_gen (draw f).
Proof. intros st st'. apply draw_reads_gen. Qed.

Lemma reads_gen_ret {A} (a : A) : reads_gen (ret a).
Proof. intros st st' Hg. split; [reflexivity|exact Hg]. Qed.

Lemma reads_gen_bind {A B} (c : M D A) (k : A -> M D B) :
  reads_gen c -> (forall a, reads_gen (k a)) -> reads_gen (bind c k).
Proof.
  intros Hc Hk st st' Hg. rewrite !bind_run.
  destruct (Hc st st' Hg) as [Hv Hg']. rewrite Hv. apply Hk. exact Hg'.
Qed.

Lemma reads_gen_prior_Gauss_params_sample : reads_gen prior_Gauss_params_sample.
Proof.
  unfold prior_Gauss_params_sample.
  apply reads_gen_bind; [apply reads_gen_draw|intros p_mu].
  apply reads_gen_bind; [apply reads_gen_draw|intros precision].
  apply reads_gen_ret.
Qed.

Lemma reads_gen_prior_Gauss_mixture_params_sample :
  reads_gen prior_Gauss_mixture_params_sample.
Proof.
  unfold prior_Gauss_mixture_params_sample.
  apply reads_gen_bind; [apply reads_gen_draw|intros w].
  apply reads_gen_bind; [apply reads_gen_prior_Gauss_params_sample|intros g1].
  apply reads_gen_bind; [apply reads_gen_prior_Gauss_params_sample|intros g2].
  apply reads_gen_ret.
Qed.

Lemma reads_gen_repeatM {A} (c : M D A) (n : nat) :
  reads_gen c -> reads_gen (repeatM n c).
Proof.
  intros Hc. induction n as [|n IH]; simpl.
  - apply reads_gen_ret.
  - apply reads_gen_bind; [exact Hc|intros a].
    apply reads_gen_bind; [exact IH|intros rest]. apply reads_gen_ret.
Qed.


(** ** Generating data touches the buffer and the generator only *)

Lemma same_tables_refl (st : State D) : same_tables st st.
Proof. repeat split. Qed.

Lemma same_tables_trans (st1 st2 st3 : State D) :
  same_tables st1 st2 -> same_tables st2 st3 -> same_tables st1 st3.
Proof.
  intros (H1 & H2 & H3 & H4 & H5) (K1 & K2 & K3 & K4 & K5).
  repeat split; congruence.
Qed.

Lemma same_but_gen_same_tables (st st' : State D) :
  same_but_gen st st' -> same_tables st st'.
Proof. intros ->. repeat split. Qed.

Lemma same_tables_wf (st st' : State D) :
  same_tables st st' -> wf_state st -> wf_state st'.
Proof.
  intros (H1 & H2 & H3 & H4 & _) (W1 & W2 & W3 & W4).
  repeat split; congruence.
Qed.

Lemma same_tables_out (st st' : State D) : same_tables st st' -> out st' = out st.
Proof. intros (_ & _ & _ & _ & H). exact H. Qed.

Lemma bind_same_tables {A B} (c : M D A) (k : A -> M D B) :
  (forall st, same_tables st (snd (c st))) ->
  (forall a st, same_tables st (snd (k a st))) ->
  forall st, same_tables st (snd (bind c k st)).
Proof.
  intros Hc Hk st. rewrite bind_run.
  eapply same_tables_trans; [apply Hc|apply Hk].
Qed.

Lemma draw_same_tables (f : rng -> D * rng) (st : State D) :
  same_tables st (snd (draw f st)).
Proof. apply same_but_gen_same_tables, draw_same_but_gen. Qed.

Lemma store_data_same_tables (i : nat) (x : D) (st : State D) :
  same_tables st (snd (modify (fun st => set_data st (<[i := x]> (data st))) st)).
Proof. repeat split. simpl. apply length_insert. Qed.

Lemma for_from_same_tables {A} (body : nat -> A -> M D A) :
  (forall i a st, same_tables st (snd (body i a st))) ->
  forall k i a st, same_tables st (snd (for_from k i body a st)).
Proof.
  intros Hbody. induction k as [|k IH]; intros i a st; simpl.
  - apply same_tables_refl.
  - rewrite bind_run. eapply same_tables_trans; [apply Hbody|apply IH].
Qed.

Lemma data_generate_1component_frame (params : Gauss_params D) (st : State D) :
  same_tables st (snd (data_generate_1component params st)).
Proof.
  unfold data_generate_1component, for_. apply for_from_same_tables.
  intros i a st'. revert st'.
  apply bind_same_tables; [apply draw_same_tables|intros x st'].
  apply store_data_same_tables.
Qed.

Lemma data_generate_2component_frame (params : Gauss_mixture_params D) (st : State D) :
  same_tables st (snd (data_generate_2component params st)).
Proof.
  unfold data_generate_2component, for_. apply for_from_same_tables.
  intros i a st'. revert st'.
  apply bind_same_tables; [apply draw_same_tables|intros u].
  apply bind_same_tables; [apply draw_same_tables|intros x st'].
  apply store_data_same_tables.
Qed.


End Estimators.

(** ** The experiment driver *)

Lemma uint_incr_small (c : N) : (c + 1 < uint_modulus)%N -> uint_incr c = (c + 1)%N.
Proof. intros Hc. unfold uint_incr. apply N.mod_small. exact Hc. Qed.

Lemma uint_sub_small (a b : N) :
  (b <= a)%N -> (a < uint_modulus)%N -> uint_sub a b = (a - b)%N.
Proof.
  intros Hba Ha. unfold uint_sub.
  replace (a + uint_modulus - b)%N with (a - b + 1 * uint_modulus)%N by lia.
  rewrite N.Div0.mod_add. apply N.mod_small. lia.
Qed.

Section Driver.

Context {D : Type} {ops : DoubleOps D} {gsl : GSLfun D}.

Lemma count_trials_le (f : Estimates D -> bool) (es : list (Estimates D)) :
  (count_trials f es <= N.of_nat (length es))%N.
Proof.
  unfold count_trials. pose proof (List.filter_length_le f es). lia.
Qed.

Lemma count_trials_negb (f : Estimates D -> bool) (es : list (Estimates D)) :
  (N.of_nat (length es) - count_trials f es)%N
  = count_trials (fun e => negb (f e)) es.
Proof.
  unfold count_trials. induction es as [|e es IH]; simpl; [reflexivity|].
  pose proof (List.filter_length_le f es).
  destruct (f e); simpl; lia.
Qed.

(** The counters of a loop of the driver count the trials that favor the
    one-component model; they never wrap around. *)
Lemma tally_counts (es : list (Estimates D)) (a b : N) :
  (a + N.of_nat (length es) < uint_modulus)%N ->
  (b + N.of_nat (length es) < uint_modulus)%N ->
  fold_left (fun favors1 e => tally e favors1) es (a, b)
  = ((a + count_trials sampling_favors1 es)%N,
     (b + count_trials summing_favors1 es)%N).
Proof.
  unfold count_trials. revert a b.
  induction es as [|e es IH]; intros a b Ha Hb; simpl.
  - f_equal; lia.
  - simpl in Ha, Hb. unfold tally at 2. simpl fst. simpl snd.
    destruct (sampling_favors1 e), (summing_favors1 e); simpl length;
      rewrite ?uint_incr_small by lia; rewrite IH by lia; f_equal; lia.
Qed.

Lemma driver_loop (trial : M D (Estimates D)) (datasets_n : N) (st : State D) :
  (datasets_n < uint_modulus)%N ->
  for_ (N.to_nat datasets_n)
    (fun iter favors1 => e <- trial ;; ret (tally e favors1)) (0%N, 0%N) st
  = ((count_trials sampling_favors1 (fst (repeatM (N.to_nat datasets_n) trial st)),
      count_trials summing_favors1 (fst (repeatM (N.to_nat datasets_n) trial st))),
     snd (repeatM (N.to_nat datasets_n) trial st)).
Proof.
  intros Hn. unfold for_.
  rewrite (for_from_accumulate trial (fun favors1 e => tally e favors1)).
  rewrite tally_counts by (rewrite length_repeatM; lia).
  reflexivity.
Qed.

Lemma main_prologue_eq (datasets_n : N) (st : State D) :
  wf_state st ->
  main_prologue datasets_n st
  = (tt, mkState (data st) Gauss_quantiles gamma_quantiles JBeta_quantiles (gen st)
           (out st ++ [OStarting (int_of_uint datasets_n); OHeader POOLED])).
Proof.
  intros Hwf. unfold main_prologue.
  rewrite bind_run, (cdfInv_precompute_eq st Hwf), bind_run.
  unfold printf, modify, set_out.
  cbn [fst snd data cdfInv_Gauss cdfInv_gamma cdfInv_JBeta gen out].
  rewrite <- app_assoc. reflexivity.
Qed.

Lemma main_prologue_wf (datasets_n : N) (st : State D) :
  wf_state st -> wf_state (snd (main_prologue datasets_n st)).
Proof.
  intros Hwf. rewrite (main_prologue_eq datasets_n st Hwf).
  destruct Hwf as (Hd & _). repeat split; try exact Hd;
    cbn [snd cdfInv_Gauss cdfInv_gamma cdfInv_JBeta];
    unfold Gauss_quantiles, gamma_quantiles, JBeta_quantiles;
    rewrite length_map, length_seq; reflexivity.
Qed.

(** The whole of [main] after its arguments are parsed: the trials of the two
    loops, then the four counts. *)
Lemma main_body_eq (datasets_n : N) (st : State D) :
  (datasets_n < uint_modulus)%N ->
  let n := N.to_nat datasets_n in
  let trials1 := repeatM n trial_1component (snd (main_prologue datasets_n st)) in
  let trials2 :=
    repeatM n trial_2component (snd (printf (OHeader DIFFER) (snd trials1))) in
  main_body datasets_n st
  = (tt, set_out (snd trials2)
           (out (snd trials2) ++
            [OCorrect BySampling POOLED
               (count_trials (recorded_correct POOLED BySampling) (fst trials1)) datasets_n;
             OCorrect BySampling DIFFER
               (count_trials (recorded_correct DIFFER BySampling) (fst trials2)) datasets_n;
             OCorrect BySumming POOLED
               (count_trials (recorded_correct POOLED BySumming) (fst trials1)) datasets_n;
             OCorrect BySumming DIFFER
               (count_trials (recorded_correct DIFFER BySumming) (fst trials2)) datasets_n])).
Proof.
  intros Hn n trials1 trials2. unfold main_body.
  rewrite bind_run, bind_run. rewrite driver_loop by exact Hn.
  cbn [fst snd]. rewrite bind_run, bind_run. rewrite driver_loop by exact Hn.
  cbn [fst snd]. fold n. fold trials1. fold trials2.
  assert (Hsub : forall f,
    uint_sub datasets_n (count_trials f (fst trials2))
    = count_trials (fun e => negb (f e)) (fst trials2)).
  { intros f. rewrite <- count_trials_negb.
    assert (Hlen : N.of_nat (length (fst trials2)) = datasets_n).
    { unfold trials2. rewrite length_repeatM. apply N2Nat.id. }
    pose proof (count_trials_le f (fst trials2)) as Hle.
    rewrite Hlen in *. apply uint_sub_small; [exact Hle|exact Hn]. }
  unfold main_report. rewrite !bind_run. cbn [fst snd]. rewrite !Hsub.
  unfold printf, modify, set_out.
  cbn [fst snd data cdfInv_Gauss cdfInv_gamma cdfInv_JBeta gen out].
  rewrite <- !app_assoc. reflexivity.
Qed.

End Driver.

(** ** Exact arithmetic *)

Section RealArithmetic.

Context {gsl : GSLfun R}.

Local Open Scope R_scope.

Lemma double_of_nat_R (i : nat) : double_of_nat (D := R) i = INR i.
Proof.
  unfold double_of_nat. cbn [double_of_uint R_DoubleOps].
  rewrite nat_N_Z. symmetry. apply INR_IZR_INZ.
Qed.

Lemma Gauss_probability_R (i : nat) :
  Gauss_probability (D := R) i = (INR i + 1) / 21.
Proof.
  unfold Gauss_probability, cdf_Gauss_n. rewrite !double_of_nat_R.
  cbn [ddiv dadd d1 R_DoubleOps]. rewrite plus_INR.
  unfold CDF_GAUSS_N. simpl INR. f_equal. lra.
Qed.

Lemma gamma_probability_R (i : nat) :
  gamma_probability (D := R) i = INR i / 10.
Proof.
  unfold gamma_probability, cdf_gamma_n. rewrite !double_of_nat_R.
  cbn [ddiv R_DoubleOps]. unfold CDF_GAMMA_N. simpl INR. f_equal. lra.
Qed.

Lemma JBeta_probability_R (i : nat) :
  JBeta_probability (D := R) i = / 2 * INR i / 40.
Proof.
  unfold JBeta_probability, cdf_JBeta_n. rewrite !double_of_nat_R.
  cbn [ddiv dmul dhalf R_DoubleOps]. unfold CDF_JBETA_N. simpl INR. f_equal. lra.
Qed.

Lemma INR_below (i n : nat) : (i < n)%nat -> 0 <= INR i /\ INR i + 1 <= INR n.
Proof.
  intros Hi. split; [apply pos_INR|].
  rewrite <- S_INR. apply le_INR. lia.
Qed.

Lemma sigma_of_precision_R (precision : R) :
  sigma_of_precision precision = 1 / sqrt precision.
Proof. reflexivity. Qed.

Lemma Gauss_quantiles_R :
  Gauss_quantiles
  = map (fun i => gsl_cdf_gaussian_Pinv ((INR i + 1) / 21) 4) (seq 0 20).
Proof.
  unfold Gauss_quantiles. apply map_ext. intros i.
  rewrite Gauss_probability_R. reflexivity.
Qed.

Lemma gamma_quantiles_R :
  gamma_quantiles
  = map (fun i => gsl_cdf_gamma_Pinv (INR i / 10) (/ 2) 2) (seq 0 10).
Proof.
  unfold gamma_quantiles. apply map_ext. intros i.
  rewrite gamma_probability_R. reflexivity.
Qed.

Lemma JBeta_quantiles_R :
  JBeta_quantiles
  = map (fun i => gsl_cdf_beta_Pinv (/ 2 * INR i / 40) (/ 2) (/ 2)) (seq 0 40).
Proof.
  unfold JBeta_quantiles. apply map_ext. intros i.
  rewrite JBeta_probability_R. reflexivity.
Qed.

(** The two ways of writing the mixture density agree. *)
Lemma newProb_agree (w x : R) (p1 p2 : Gauss_params R) :
  newProb_bySampling (mkMixture w p1 p2) x = newProb_bySumming w x p1 p2.
Proof.
  unfold newProb_bySampling, newProb_bySumming.
  cbn [dadd dmul dsub d1 R_DoubleOps mixCof Gauss1 Gauss2]. ring.
Qed.

(** When every density is zero, so is every estimate. *)
Section ZeroDensity.

Hypothesis pdf_zero : forall x p, GSLfun_ran_gaussian_pdf x p = 0.













End ZeroDensity.

End RealArithmetic.

(** ** The program run against the test double *)

Section TestDouble.

Context {D : Type} {ops : DoubleOps D}.

Local Existing Instance gsl_double.

(** Every draw of parameters advances the counting generator by the number of
    deviates drawn. *)
Lemma prior_Gauss_params_sample_double (st : State D) :
  prior_Gauss_params_sample st
  = (mkGauss d0 (sigma_of_precision d1), set_gen st (gen st + 2)%N).
Proof.
  unfold prior_Gauss_params_sample, bind, draw, ret. simpl.
  f_equal. f_equal. lia.
Qed.


Lemma repeatM_prior_Gauss_params_sample_double (n : nat) (st : State D) :
  gen (snd (repeatM n prior_Gauss_params_sample st)) = (gen st + 2 * N.of_nat n)%N.
Proof.
  revert st. induction n as [|n IH]; intros st.
  - simpl. lia.
  - cbn [repeatM]. rewrite bind_run, prior_Gauss_params_sample_double. cbn [fst snd].
    rewrite bind_run. unfold ret at 1. cbn [snd]. rewrite IH. simpl gen. lia.
Qed.

End TestDouble.

Section RealTestDouble.

Local Existing Instance gsl_double.

Local Open Scope R_scope.










End RealTestDouble.

(** ** Binary64 arithmetic

    What the specification of the kernel's floats ([SpecFloat], through the
    equations of [FloatAxioms]) gives for the operations the program applies
    to scales and variances: 1/sqrt(x) of a positive finite [x] is positive
    and finite, and squares, sums and quotients of numbers that are not
    negative are not negative. *)

Section Binary64.

Import PrimFloat SpecFloat FloatOps FloatAxioms.

Local Open Scope Z_scope.

Lemma fexp_eq (k : Z) : fexp prec emax k = Z.max (k - 53) (-1074).
Proof. reflexivity. Qed.

Lemma digits2_pos_bounds (p : positive) :
  2 ^ (Zpos (digits2_pos p) - 1) <= Zpos p < 2 ^ Zpos (digits2_pos p).
Proof.
  induction p as [p IH|p IH|]; cbn [digits2_pos].
  - rewrite Pos2Z.inj_succ.
    replace (Z.succ (Zpos (digits2_pos p)) - 1) with (Z.succ (Zpos (digits2_pos p) - 1)) by lia.
    rewrite !Z.pow_succ_r by lia. lia.
  - rewrite Pos2Z.inj_succ.
    replace (Z.succ (Zpos (digits2_pos p)) - 1) with (Z.succ (Zpos (digits2_pos p) - 1)) by lia.
    rewrite !Z.pow_succ_r by lia. lia.
  - cbn. lia.
Qed.

Lemma Zdigits2_unique (m k : Z) :
  1 <= k -> 2 ^ (k - 1) <= m < 2 ^ k -> Zdigits2 m = k.
Proof.
  intros Hk [Hlo Hhi].
  assert (Hm : 0 < m) by (pose proof (Z.pow_pos_nonneg 2 (k - 1)); lia).
  destruct m as [|p|p]; try lia. cbn [Zdigits2].
  pose proof (digits2_pos_bounds p) as [Hlo' Hhi'].
  destruct (Z.lt_trichotomy (Zpos (digits2_pos p)) k) as [H|[H|H]]; [|exact H|].
  - pose proof (Z.pow_le_mono_r 2 (Zpos (digits2_pos p)) (k - 1)). lia.
  - pose proof (Z.pow_le_mono_r 2 k (Zpos (digits2_pos p) - 1)). lia.
Qed.

Lemma shr_1_m (r : shr_record) : 0 <= shr_m r -> shr_m (shr_1 r) = shr_m r / 2.
Proof.
  destruct r as [m rb sb]. cbn [shr_m]. intros Hm.
  destruct m as [|[p|p|]|p]; cbn [shr_1 shr_m]; try lia.
  - reflexivity.
  - rewrite Pos2Z.inj_xI. apply (Z.div_unique_pos _ _ _ 1); lia.
  - rewrite Pos2Z.inj_xO. apply (Z.div_unique_pos _ _ _ 0); lia.
  - reflexivity.
Qed.

Lemma iter_shr_1_m (p : positive) :
  forall r, 0 <= shr_m r -> shr_m (iter_pos shr_1 p r) = shr_m r / 2 ^ Zpos p.
Proof.
  induction p as [p IH|p IH|]; intros r Hr; cbn [iter_pos].
  - assert (H1 : 0 <= shr_m (shr_1 r)) by (rewrite shr_1_m by exact Hr; apply Z.div_pos; lia).
    assert (H2 : 0 <= shr_m (iter_pos shr_1 p (shr_1 r)))
      by (rewrite IH by exact H1; apply Z.div_pos; [exact H1|apply Z.pow_pos_nonneg; lia]).
    rewrite IH by exact H2. rewrite IH by exact H1. rewrite shr_1_m by exact Hr.
    rewrite !Z.div_div by (try apply Z.pow_pos_nonneg; lia).
    f_equal. rewrite <- Z.pow_add_r by lia. rewrite <- Z.pow_succ_r by lia.
    f_equal. lia.
  - assert (H2 : 0 <= shr_m (iter_pos shr_1 p r))
      by (rewrite IH by exact Hr; apply Z.div_pos; [exact Hr|apply Z.pow_pos_nonneg; lia]).
    rewrite IH by exact H2. rewrite IH by exact Hr.
    rewrite !Z.div_div by (try apply Z.pow_pos_nonneg; lia).
    f_equal. rewrite <- Z.pow_add_r by lia. f_equal. lia.
  - apply shr_1_m. exact Hr.
Qed.

Lemma shr_record_of_loc_m (m : Z) (l : location) : shr_m (shr_record_of_loc m l) = m.
Proof. destruct l as [|[| |]]; reflexivity. Qed.

(** Dividing a [k]-digit number by [2 ^ n] leaves [k - n] digits. *)
Lemma div_pow2_bounds (m k n : Z) :
  0 <= n -> n <= k - 1 -> 2 ^ (k - 1) <= m < 2 ^ k ->
  2 ^ (k - n - 1) <= m / 2 ^ n < 2 ^ (k - n).
Proof.
  intros Hn Hk [Hlo Hhi].
  assert (Hp : 0 < 2 ^ n) by (apply Z.pow_pos_nonneg; lia).
  split.
  - apply Z.div_le_lower_bound; [exact Hp|].
    rewrite <- Z.pow_add_r by lia. replace (n + (k - n - 1)) with (k - 1) by lia. exact Hlo.
  - apply Z.div_lt_upper_bound; [exact Hp|].
    rewrite <- Z.pow_add_r by lia. replace (n + (k - n)) with k by lia. exact Hhi.
Qed.

(** The first right shift of [binary_round_aux]. *)
Lemma shr_fexp_bounds (m e : Z) (l : location) (k : Z) :
  1 <= k -> 2 ^ (k - 1) <= m < 2 ^ k ->
  e <= fexp prec emax (k + e) -> -1073 <= k + e ->
  let k1 := k + e - fexp prec emax (k + e) in
  1 <= k1
  /\ 2 ^ (k1 - 1) <= shr_m (fst (shr_fexp prec emax m e l)) < 2 ^ k1
  /\ snd (shr_fexp prec emax m e l) = fexp prec emax (k + e).
Proof.
  intros Hk Hm He Hmag k1.
  assert (Hk1 : 1 <= k1) by (unfold k1; rewrite fexp_eq; lia).
  split; [exact Hk1|].
  unfold shr_fexp. rewrite (Zdigits2_unique m k Hk Hm).
  destruct (fexp prec emax (k + e) - e) as [|n|n] eqn:En; try lia; cbn [shr fst snd].
  - rewrite shr_record_of_loc_m. replace k1 with k by (unfold k1; lia).
    split; [exact Hm|lia].
  - rewrite iter_shr_1_m by (rewrite shr_record_of_loc_m; lia).
    rewrite shr_record_of_loc_m. split; [|lia].
    replace k1 with (k - Zpos n) by (unfold k1; lia).
    apply div_pow2_bounds; [lia|unfold k1 in Hk1; lia|exact Hm].
Qed.

Lemma round_nearest_even_bounds (m : Z) (l : location) :
  m <= round_nearest_even m l <= m + 1.
Proof.
  destruct l as [|[| |]]; cbn [round_nearest_even]; try lia.
  destruct (Z.even m); lia.
Qed.

(** Rounding a positive mantissa whose magnitude is in range gives a finite
    positive number of the same magnitude, or of the next one. *)
Lemma binary_round_aux_finite (s : bool) (m e : Z) (l : location) (k : Z) :
  1 <= k -> 2 ^ (k - 1) <= m < 2 ^ k ->
  e <= fexp prec emax (k + e) -> -1073 <= k + e <= 1023 ->
  exists (m' : positive) (e' k' : Z),
    binary_round_aux prec emax s m e l = S754_finite s m' e'
    /\ 1 <= k' /\ 2 ^ (k' - 1) <= Zpos m' < 2 ^ k'
    /\ k + e <= k' + e' <= k + e + 1.
Proof.
  intros Hk Hm He [Hlo Hhi].
  destruct (shr_fexp_bounds m e l k Hk Hm He Hlo) as (Hk1 & Hm1 & He1).
  unfold binary_round_aux.
  destruct (shr_fexp prec emax m e l) as [mrs1 e1]. cbn [fst snd] in Hm1, He1.
  set (k1 := k + e - fexp prec emax (k + e)) in *.
  pose proof (round_nearest_even_bounds (shr_m mrs1) (loc_of_shr_record mrs1)) as Hr.
  set (m2 := round_nearest_even (shr_m mrs1) (loc_of_shr_record mrs1)) in *.
  assert (Hcase : exists k2, (k2 = k1 \/ k2 = k1 + 1) /\ 2 ^ (k2 - 1) <= m2 < 2 ^ k2).
  { destruct (Z.lt_ge_cases m2 (2 ^ k1)) as [H|H].
    - exists k1. split; [left; reflexivity|lia].
    - exists (k1 + 1). split; [right; reflexivity|].
      replace (k1 + 1 - 1) with k1 by lia.
      rewrite Z.pow_add_r by lia. change (2 ^ 1) with 2. lia. }
  destruct Hcase as (k2 & Hk2 & Hm2).
  assert (Hfexp : fexp prec emax (k + e) <= fexp prec emax (k2 + e1))
    by (rewrite !fexp_eq; unfold k1 in Hk2; rewrite fexp_eq in Hk2, He1; lia).
  assert (Hk2' : 1 <= k2) by lia.
  assert (He2 : e1 <= fexp prec emax (k2 + e1)) by lia.
  assert (Hmag2 : -1073 <= k2 + e1) by (unfold k1 in Hk2; lia).
  destruct (shr_fexp_bounds m2 e1 loc_Exact k2 Hk2' Hm2 He2 Hmag2) as (Hk3 & Hm3 & He3).
  destruct (shr_fexp prec emax m2 e1 loc_Exact) as [mrs3 e3]. cbn [fst snd] in Hm3, He3.
  assert (Hpos : 0 < shr_m mrs3)
    by (pose proof (Z.pow_pos_nonneg 2 (k2 + e1 - fexp prec emax (k2 + e1) - 1)); lia).
  destruct (shr_m mrs3) as [|m3|m3]; try lia.
  assert (Hle : (e3 <=? emax - prec) = true).
  { apply Z.leb_le. rewrite He3, fexp_eq. change (emax - prec) with 971.
    unfold k1 in Hk2. rewrite fexp_eq in Hk2, He1. lia. }
  rewrite Hle.
  exists m3, e3, (k2 + e1 - fexp prec emax (k2 + e1)).
  split; [reflexivity|]. split; [exact Hk3|]. split; [exact Hm3|].
  unfold k1 in Hk2. lia.
Qed.

Lemma shift_match (a s : Z) :
  0 <= s ->
  match s with Z0 => a | Zpos _ => Z.shiftl a s | Zneg _ => 0 end = a * 2 ^ s.
Proof.
  intros Hs. destruct s as [|p|p].
  - rewrite Z.pow_0_r. lia.
  - apply Z.shiftl_mul_pow2. lia.
  - lia.
Qed.

Lemma sqrt_bounds (n q r D : Z) :
  1 <= D -> 2 ^ (D - 1) <= n < 2 ^ D ->
  n = q * q + r -> 0 <= r <= 2 * q ->
  2 ^ ((D + 1) / 2 - 1) <= q < 2 ^ ((D + 1) / 2).
Proof.
  intros HD [Hlo Hhi] Hn Hr.
  set (c := (D + 1) / 2).
  assert (Hc : 1 <= c /\ D <= 2 * c <= D + 1) by (unfold c; Z.div_mod_to_equations; lia).
  assert (Hq : 0 <= q) by lia.
  split.
  - destruct (Z.le_gt_cases (2 ^ (c - 1)) q) as [H|H]; [exact H|exfalso].
    assert (Hsq : 2 ^ (c - 1) * 2 ^ (c - 1) <= 2 ^ (D - 1)).
    { rewrite <- Z.pow_add_r by lia. apply Z.pow_le_mono_r; lia. }
    assert (Hpos : 0 < 2 ^ (c - 1)) by (apply Z.pow_pos_nonneg; lia).
    nia.
  - destruct (Z.lt_ge_cases q (2 ^ c)) as [H|H]; [exact H|exfalso].
    assert (Hsq : 2 ^ D <= 2 ^ c * 2 ^ c).
    { rewrite <- Z.pow_add_r by lia. apply Z.pow_le_mono_r; lia. }
    assert (Hpos : 0 < 2 ^ c) by (apply Z.pow_pos_nonneg; lia).
    nia.
Qed.

(** The square root of a positive finite number is a positive finite number,
    of about half the magnitude. *)
Lemma SFsqrt_finite (mx : positive) (ex : Z) :
  -1073 <= Zpos (digits2_pos mx) + ex <= 1024 ->
  exists (m' : positive) (e' k' : Z),
    SFsqrt prec emax (S754_finite false mx ex) = S754_finite false m' e'
    /\ 1 <= k' /\ 2 ^ (k' - 1) <= Zpos m' < 2 ^ k'
    /\ -536 <= k' + e' <= 513.
Proof.
  intros Hmag.
  pose proof (digits2_pos_bounds mx) as Hd.
  unfold SFsqrt, SFsqrt_core_binary. cbn [Zdigits2].
  set (d := Zpos (digits2_pos mx)) in *.
  assert (Hd1 : 1 <= d) by (unfold d; lia).
  rewrite !Z.div2_div.
  set (e' := Z.min (fexp prec emax ((d + ex + 1) / 2)) (ex / 2)).
  assert (He' : e' <= fexp prec emax ((d + ex + 1) / 2) /\ 2 * e' <= ex)
    by (unfold e'; Z.div_mod_to_equations; lia).
  set (s := ex - 2 * e').
  assert (Hs : 0 <= s) by (unfold s; lia).
  set (m' := match s with Z0 => Zpos mx | Zpos _ => Z.shiftl (Zpos mx) s | Zneg _ => 0 end).
  assert (Hm' : m' = Zpos mx * 2 ^ s).
  { unfold m'. apply shift_match. exact Hs. }
  clearbody m'.
  assert (Hbounds : 2 ^ (d + s - 1) <= m' < 2 ^ (d + s)).
  { rewrite Hm'. replace (d + s - 1) with (d - 1 + s) by lia.
    rewrite !Z.pow_add_r by lia.
    assert (0 < 2 ^ s) by (apply Z.pow_pos_nonneg; lia). nia. }
  pose proof (Z.sqrtrem_spec m') as Hspec.
  destruct (Z.sqrtrem m') as [q r].
  assert (Hm'pos : 0 <= m') by (pose proof (Z.pow_pos_nonneg 2 (d + s - 1)); lia).
  destruct (Hspec Hm'pos) as [Hn Hr].
  pose proof (sqrt_bounds m' q r (d + s) ltac:(lia) Hbounds Hn Hr) as Hq.
  assert (Hkq : (d + s + 1) / 2 + e' = (d + ex + 1) / 2)
    by (unfold s; Z.div_mod_to_equations; lia).
  destruct (binary_round_aux_finite false q e'
              (if (r =? 0) then loc_Exact else loc_Inexact (if r <=? q then Lt else Gt))
              ((d + s + 1) / 2)) as (m3 & e3 & k3 & E & Hk3 & Hm3 & Hmag3).
  - Z.div_mod_to_equations; lia.
  - exact Hq.
  - rewrite Hkq. apply He'.
  - rewrite Hkq. Z.div_mod_to_equations; lia.
  - exists m3, e3, k3. split; [exact E|]. split; [exact Hk3|]. split; [exact Hm3|].
    rewrite Hkq in Hmag3. Z.div_mod_to_equations; lia.
Qed.

Lemma Prim2SF_one : Prim2SF one = S754_finite false 4503599627370496 (-52).
Proof. reflexivity. Qed.

(** The inverse of a positive finite number that is neither tiny nor huge is a
    positive finite number. *)
Lemma SFdiv_one_finite (my : positive) (ey ky : Z) :
  1 <= ky -> 2 ^ (ky - 1) <= Zpos my < 2 ^ ky ->
  -1021 <= ky + ey <= 1074 ->
  exists (m' : positive) (e' : Z),
    SFdiv prec emax (Prim2SF one) (S754_finite false my ey) = S754_finite false m' e'.
Proof.
  intros Hky Hmy Hmag. rewrite Prim2SF_one.
  unfold SFdiv, SFdiv_core_binary.
  rewrite (Zdigits2_unique (Zpos my) ky Hky Hmy).
  change (Zdigits2 4503599627370496) with 53.
  set (e' := Z.min (fexp prec emax (53 + -52 - (ky + ey))) (-52 - ey)).
  assert (He' : e' <= fexp prec emax (1 - (ky + ey)) /\ e' <= -52 - ey)
    by (unfold e'; replace (53 + -52 - (ky + ey)) with (1 - (ky + ey)) by lia; lia).
  set (s := -52 - ey - e').
  assert (Hs : 0 <= s) by (unfold s; lia).
  set (m' := match s with
             | Z0 => 4503599627370496
             | Zpos _ => Z.shiftl 4503599627370496 s
             | Zneg _ => 0
             end).
  assert (Hm' : m' = 2 ^ (52 + s)).
  { unfold m'. rewrite Z.pow_add_r by lia. change (2 ^ 52) with 4503599627370496.
    apply shift_match. exact Hs. }
  clearbody m'.
  assert (Hq : Z.div_eucl m' (Zpos my) = (m' / Zpos my, m' mod Zpos my))
    by (unfold Z.div, Z.modulo; destruct (Z.div_eucl m' (Zpos my)); reflexivity).
  rewrite Hq.
  set (q := m' / Zpos my). set (r := m' mod Zpos my).
  set (t := 52 + s - ky).
  assert (Ht : 0 <= t).
  { unfold t, s. destruct He' as [He' _]. rewrite fexp_eq in He'. lia. }
  assert (Hqb : 2 ^ t <= q <= 2 ^ (t + 1)).
  { unfold q. rewrite Hm'. split.
    - apply Z.div_le_lower_bound; [lia|].
      assert (Hpos : 0 < 2 ^ t) by (apply Z.pow_pos_nonneg; lia).
      replace (52 + s) with (ky + t) by (unfold t; lia).
      rewrite Z.pow_add_r by lia. nia.
    - apply Z.div_le_upper_bound; [lia|].
      assert (Hpos : 0 < 2 ^ (t + 1)) by (apply Z.pow_pos_nonneg; lia).
      replace (52 + s) with (ky - 1 + (t + 1)) by (unfold t; lia).
      rewrite (Z.pow_add_r 2 (ky - 1)) by lia. nia. }
  assert (Hcase : exists kq, (kq = t + 1 \/ kq = t + 2) /\ 2 ^ (kq - 1) <= q < 2 ^ kq).
  { destruct (Z.lt_ge_cases q (2 ^ (t + 1))) as [H|H].
    - exists (t + 1). split; [left; reflexivity|].
      replace (t + 1 - 1) with t by lia. lia.
    - exists (t + 2). split; [right; reflexivity|].
      replace (t + 2 - 1) with (t + 1) by lia.
      replace (t + 2) with (t + 1 + 1) by lia.
      rewrite (Z.pow_add_r 2 (t + 1) 1) by lia. change (2 ^ 1) with 2. lia. }
  destruct Hcase as (kq & Hkq & Hqd).
  assert (Hsum : kq + e' = 1 - (ky + ey) \/ kq + e' = 2 - (ky + ey))
    by (unfold t, s in Hkq; lia).
  destruct (binary_round_aux_finite (xorb false false) q e'
              (new_location (Zpos my) r) kq) as (m3 & e3 & k3 & E & _).
  - lia.
  - exact Hqd.
  - destruct He' as [He' _]. rewrite fexp_eq in *. lia.
  - lia.
  - exists m3, e3. exact E.
Qed.

Lemma Prim2SF_zero : Prim2SF zero = S754_zero false.
Proof. reflexivity. Qed.

Lemma Prim2SF_infinity : Prim2SF infinity = S754_infinity false.
Proof. reflexivity. Qed.

(** A float between zero and infinity is a positive finite number in the
    range of the format. *)
Lemma Prim2SF_positive_finite (x : float) :
  ltb zero x = true -> ltb x infinity = true ->
  exists (m : positive) (e : Z),
    Prim2SF x = S754_finite false m e
    /\ -1073 <= Zpos (digits2_pos m) + e <= 1024.
Proof.
  rewrite !ltb_spec, Prim2SF_zero, Prim2SF_infinity.
  pose proof (Prim2SF_valid x) as Hvalid.
  destruct (Prim2SF x) as [s|s| |s m e]; try discriminate.
  - destruct s; discriminate.
  - destruct s; [discriminate|]. intros _ _.
    exists m, e. split; [reflexivity|].
    cbn [SpecFloat.valid_binary] in Hvalid. unfold bounded, canonical_mantissa in Hvalid.
    apply andb_prop in Hvalid. destruct Hvalid as [Hc Hb].
    apply Z.eqb_eq in Hc. apply Z.leb_le in Hb.
    rewrite fexp_eq in Hc. change (emax - prec) with 971 in Hb.
    pose proof (Pos2Z.is_pos (digits2_pos m)). lia.
Qed.

Lemma finite_positive_between (m : positive) (e : Z) :
  SFltb (S754_zero false) (S754_finite false m e) = true
  /\ SFltb (S754_finite false m e) (S754_infinity false) = true.
Proof. split; reflexivity. Qed.

(** In binary64, 1/sqrt(x) is a positive finite number whenever [x] is. *)
Lemma inverse_sqrt_positive_finite (x : float) :
  ltb zero x = true -> ltb x infinity = true ->
  ltb zero (div one (sqrt x)) = true /\ ltb (div one (sqrt x)) infinity = true.
Proof.
  intros H0 Hinf.
  destruct (Prim2SF_positive_finite x H0 Hinf) as (m & e & Ex & Hmag).
  destruct (SFsqrt_finite m e Hmag) as (m1 & e1 & k1 & E1 & Hk1 & Hm1 & Hmag1).
  destruct (SFdiv_one_finite m1 e1 k1 Hk1 Hm1 ltac:(lia)) as (m2 & e2 & E2).
  rewrite !ltb_spec, div_spec, sqrt_spec, Ex, Prim2SF_zero, Prim2SF_infinity.
  unfold SF64div, SF64sqrt. rewrite E1, E2.
  apply finite_positive_between.
Qed.

(** *** Signs *)

Lemma binary_round_aux_not_negative (m e : Z) (l : location) :
  SFltb (binary_round_aux prec emax false m e l) (S754_zero false) = false.
Proof.
  unfold binary_round_aux.
  destruct (shr_fexp prec emax m e l) as [mrs1 e1].
  destruct (shr_fexp prec emax _ e1 loc_Exact) as [mrs2 e2].
  destruct (shr_m mrs2); [reflexivity| |reflexivity].
  destruct (e2 <=? emax - prec); reflexivity.
Qed.

Lemma square_not_negative (a : float) : ltb (mul a a) zero = false.
Proof.
  rewrite ltb_spec, mul_spec, Prim2SF_zero. unfold SF64mul.
  destruct (Prim2SF a) as [s|s| |s m e]; cbn [SFmul].
  - destruct s; reflexivity.
  - destruct s; reflexivity.
  - reflexivity.
  - replace (xorb s s) with false by (destruct s; reflexivity).
    apply binary_round_aux_not_negative.
Qed.

Lemma add_not_negative (a b : float) :
  ltb a zero = false -> ltb b zero = false -> ltb (add a b) zero = false.
Proof.
  rewrite !ltb_spec, add_spec, Prim2SF_zero. unfold SF64add.
  destruct (Prim2SF a) as [sa|sa| |sa ma ea]; destruct (Prim2SF b) as [sb|sb| |sb mb eb];
    try destruct sa; try destruct sb; cbn [SFadd]; intros Ha Hb;
    try discriminate; try reflexivity.
  cbn [cond_Zopp]. rewrite <- Pos2Z.inj_add. unfold binary_normalize, binary_round.
  match goal with
  | |- context [shl_align (?p + ?q)%positive ?e ?e'] =>
      destruct (shl_align (p + q)%positive e e') as [mz ez]
  end.
  apply binary_round_aux_not_negative.
Qed.

Lemma div_not_negative (a c : float) :
  ltb zero c = true -> ltb c infinity = true ->
  ltb a zero = false -> ltb (div a c) zero = false.
Proof.
  intros H0 Hinf.
  destruct (Prim2SF_positive_finite c H0 Hinf) as (m & e & Ec & _).
  rewrite !ltb_spec, div_spec, Ec, Prim2SF_zero. unfold SF64div.
  destruct (Prim2SF a) as [sa|sa| |sa ma ea]; try destruct sa; cbn [SFdiv xorb];
    intros Ha; try discriminate; try reflexivity.
  destruct (SFdiv_core_binary prec emax (Zpos ma) ea (Zpos m) e) as [[mz ez] lz].
  apply binary_round_aux_not_negative.
Qed.

Lemma sigma_of_precision_positive_finite (p : float) :
  float_positive_finite p = true ->
  float_positive_finite (sigma_of_precision p) = true.
Proof.
  unfold float_positive_finite, sigma_of_precision.
  cbn [ddiv dsqrt d1 float_DoubleOps].
  intros H. apply andb_prop in H. destruct H as [H0 Hinf].
  destruct (inverse_sqrt_positive_finite p H0 Hinf) as [H0' Hinf'].
  rewrite H0', Hinf'. reflexivity.
Qed.

(** A float below 1 is below infinity. *)
Lemma ltb_one_infinity (x : float) : ltb x one = true -> ltb x infinity = true.
Proof.
  rewrite !ltb_spec, Prim2SF_one, Prim2SF_infinity.
  destruct (Prim2SF x) as [s|s| |s m e]; try destruct s; try discriminate;
    intros _; reflexivity.
Qed.

End Binary64.

(* ================================================================== *)
(** * Part III: the claims *)
(* ================================================================== *)

Section Claims.

Context {D : Type} {ops : DoubleOps D} {gsl : GSLfun D}.

Local Open Scope double_scope.

(** C1: for every dataset of the fixed length 40, the one-component
    quadrature estimator returns the sum, over every (mean, scale) pair of the
    cross-product of the mean grid (20 nodes) and the scale grid (10 nodes,
    each the image 1/sqrt(precision) of a precision node), of the product over
    the 40 observations of the Gaussian density at the observation, divided
    by the number of cells, 20 * 10.  The state is left as it was. *)
Theorem bySumming_1component_is_grid_sum (st : State D) :
  wf_state st ->
  data_prob_1component_bySumming st
  = (total
       (fun cell =>
          fold_left (fun prob x => prob * GSLfun_ran_gaussian_pdf x cell) (data st) d1)
       (map (fun c => mkGauss (fst c) (snd c))
          (list_prod (cdfInv_Gauss st) (map sigma_of_precision (cdfInv_gamma st))))
     / (double_of_nat 20 * double_of_nat 10), st)
  /\ length (data st) = 40
  /\ length (list_prod (cdfInv_Gauss st) (map sigma_of_precision (cdfInv_gamma st)))
     = (20 * 10)%nat.
Proof.
  intros Hwf. split; [exact (data_prob_1component_bySumming_eq st Hwf)|].
  destruct Hwf as (Hd & HG & Hg & _). split; [exact Hd|].
  rewrite length_prod, length_map, HG, Hg. reflexivity.
Qed.

(** C2: for every dataset of the fixed length 40, the two-component
    quadrature estimator returns the sum over the five-fold cross-product
    (mean1, mean2, scale1, scale2, weight) of the mean grid (twice, 20 nodes),
    the scale grid (twice, 10 nodes) and the weight grid (40 nodes), of the
    product over the 40 observations of the mixture density
    weight * density(component1) + (1 - weight) * density(component2), divided
    by the number of cells, 20 * 20 * 10 * 10 * 40. *)
Theorem bySumming_2component_is_grid_sum (st : State D) :
  wf_state st ->
  data_prob_2component_bySumming st
  = (total
       (fun cell =>
          fold_left
            (fun prob x =>
               prob * (mixCof cell * GSLfun_ran_gaussian_pdf x (Gauss1 cell)
                       + (d1 - mixCof cell) * GSLfun_ran_gaussian_pdf x (Gauss2 cell)))
            (data st) d1)
       (map (fun c =>
               match c with
               | (mu1, (mu2, (sigma1, (sigma2, w)))) =>
                   mkMixture w (mkGauss mu1 sigma1) (mkGauss mu2 sigma2)
               end)
          (list_prod (cdfInv_Gauss st)
             (list_prod (cdfInv_Gauss st)
                (list_prod (map sigma_of_precision (cdfInv_gamma st))
                   (list_prod (map sigma_of_precision (cdfInv_gamma st))
                      (cdfInv_JBeta st))))))
     / (double_of_nat 20 * double_of_nat 20 * double_of_nat 10 * double_of_nat 10
        * double_of_nat 40), st)
  /\ length (data st) = 40
  /\ length (cells_2component st) = (20 * 20 * 10 * 10 * 40)%nat.
Proof.
  intros Hwf. split; [exact (data_prob_2component_bySumming_eq st Hwf)|].
  destruct Hwf as (Hd & HG & Hg & HB). split; [exact Hd|].
  unfold cells_2component, mean_grid, scale_grid, weight_grid.
  rewrite length_map, !length_prod, !length_map, HG, Hg, HB.
  unfold CDF_GAUSS_N, CDF_GAMMA_N, CDF_JBETA_N. lia.
Qed.

(** C3: each Monte Carlo estimator runs 2,000,000 rounds; each round draws one
    parameter set from the prior sampler of its model and takes the product
    of the densities of all observations; the estimate is the sum of these
    products divided by the number of rounds.  The draws are those of
    2,000,000 successive calls of the sampler, and the generator is left where
    they leave it. *)
Theorem bySampling_is_mean_over_draws (st : State D) :
  length (data st) = 40 ->
  let rounds := N.to_nat sampleRepeatNum in
  let draws1 := repeatM rounds prior_Gauss_params_sample st in
  let draws2 := repeatM rounds prior_Gauss_mixture_params_sample st in
  sampleRepeatNum = 2000000%N
  /\ length (fst draws1) = rounds
  /\ length (fst draws2) = rounds
  /\ data_prob_1component_bySampling st
     = (total
          (fun params =>
             fold_left (fun curProb x => curProb * GSLfun_ran_gaussian_pdf x params)
               (data st) d1)
          (fst draws1)
        / double_of_uint sampleRepeatNum, snd draws1)
  /\ data_prob_2component_bySampling st
     = (total
          (fun params =>
             fold_left
               (fun curProb x =>
                  curProb * ((d1 - mixCof params)
                               * GSLfun_ran_gaussian_pdf x (Gauss2 params)
                             + mixCof params
                               * GSLfun_ran_gaussian_pdf x (Gauss1 params)))
               (data st) d1)
          (fst draws2)
        / double_of_uint sampleRepeatNum, snd draws2).
Proof.
  intros Hlen rounds draws1 draws2.
  split; [reflexivity|].
  split; [apply length_repeatM|].
  split; [apply length_repeatM|].
  split.
  - exact (data_prob_1component_bySampling_eq st Hlen).
  - exact (data_prob_2component_bySampling_eq st Hlen).
Qed.


(** C9, as amended: the two quadrature estimators are pure: a call returns a
    value and leaves the whole state as it was, so two calls in a row return
    the same value.  A Monte Carlo estimator leaves the dataset, the grids and
    the output as they were and moves the random generator; its value is
    determined by the dataset and the state of the generator at the call. *)
Theorem estimators_effects (st : State D) :
  wf_state st ->
  snd (data_prob_1component_bySumming st) = st
  /\ snd (data_prob_2component_bySumming st) = st
  /\ (v1 <- data_prob_1component_bySumming ;;
      v2 <- data_prob_1component_bySumming ;; ret (v1, v2)) st
     = ((fst (data_prob_1component_bySumming st),
         fst (data_prob_1component_bySumming st)), st)
  /\ (v1 <- data_prob_2component_bySumming ;;
      v2 <- data_prob_2component_bySumming ;; ret (v1, v2)) st
     = ((fst (data_prob_2component_bySumming st),
         fst (data_prob_2component_bySumming st)), st)
  /\ snd (data_prob_1component_bySampling st)
     = set_gen st (gen (snd (data_prob_1component_bySampling st)))
  /\ snd (data_prob_2component_bySampling st)
     = set_gen st (gen (snd (data_prob_2component_bySampling st)))
  /\ (forall st' : State D,
        data st' = data st -> gen st' = gen st ->
        fst (data_prob_1component_bySampling st')
        = fst (data_prob_1component_bySampling st)
        /\ fst (data_prob_2component_bySampling st')
           = fst (data_prob_2component_bySampling st)).
Proof.
  intros Hwf. pose proof Hwf as (Hd & _).
  pose proof (data_prob_1component_bySumming_frame st Hwf) as F1.
  pose proof (data_prob_2component_bySumming_frame st Hwf) as F2.
  split; [exact F1|]. split; [exact F2|].
  split; [rewrite bind_run, F1, bind_run, F1; reflexivity|].
  split; [rewrite bind_run, F2, bind_run, F2; reflexivity|].
  split; [exact (data_prob_1component_bySampling_frame st Hd)|].
  split; [exact (data_prob_2component_bySampling_frame st Hd)|].
  intros st' Hdata Hgen.
  assert (Hd' : length (data st') = DATA_N) by (rewrite Hdata; exact Hd).
  rewrite (data_prob_1component_bySampling_eq st Hd),
          (data_prob_1component_bySampling_eq st' Hd'),
          (data_prob_2component_bySampling_eq st Hd),
          (data_prob_2component_bySampling_eq st' Hd').
  cbn [fst]. rewrite Hdata.
  destruct (reads_gen_repeatM prior_Gauss_params_sample (N.to_nat sampleRepeatNum)
              reads_gen_prior_Gauss_params_sample st' st Hgen) as [-> _].
  destruct (reads_gen_repeatM prior_Gauss_mixture_params_sample
              (N.to_nat sampleRepeatNum)
              reads_gen_prior_Gauss_mixture_params_sample st' st Hgen) as [-> _].
  split; reflexivity.
Qed.

End Claims.

Section RealClaims.

Context {gsl : GSLfun R}.

Local Open Scope R_scope.

Lemma fst_draw (f : rng -> R * rng) (st : State R) : fst (draw f st) = fst (f (gen st)).
Proof. unfold draw. destruct (f (gen st)); reflexivity. Qed.

Lemma nth_map_seq (f : nat -> R) (n i : nat) :
  (i < n)%nat -> nth i (map f (seq 0 n)) 0 = f i.
Proof.
  intros Hi.
  rewrite (nth_indep _ 0 (f 0%nat)) by (rewrite length_map, length_seq; exact Hi).
  rewrite (map_nth f (seq 0 n) 0%nat i), seq_nth by exact Hi. reflexivity.
Qed.

(** C4: the grid builder stores, in the mean grid, the quantiles of the mean
    prior (scale 4) at the probabilities 1/21, 2/21, ..., 20/21, none of which
    is 0 or 1, and in the precision grid the quantiles of the Gamma(0.5, 2)
    prior at the probabilities 0/10, 1/10, ..., 9/10; the scale grid that the
    integrators use is the image of the precision grid under
    scale = 1/sqrt(precision). *)
Theorem grid_builder_nodes (st : State R) :
  wf_state st ->
  let st' := snd (cdfInv_precompute st) in
  cdfInv_Gauss st'
  = map (fun i => gsl_cdf_gaussian_Pinv ((INR i + 1) / (20 + 1)) 4) (seq 0 20)
  /\ (forall i, (i < 20)%nat -> 0 < (INR i + 1) / (20 + 1) < 1)
  /\ cdfInv_gamma st'
     = map (fun i => gsl_cdf_gamma_Pinv (INR i / 10) (/ 2) 2) (seq 0 10)
  /\ (forall i, (i < 10)%nat -> 0 <= INR i / 10 < 1)
  /\ scale_grid st'
     = map (fun i => 1 / sqrt (gsl_cdf_gamma_Pinv (INR i / 10) (/ 2) 2)) (seq 0 10)
  /\ fst (data_prob_1component_bySumming st')
     = total (likelihood_1component (data st))
         (map (fun c => mkGauss (fst c) (snd c))
            (list_prod (cdfInv_Gauss st') (scale_grid st')))
       / (20 * 10)
  /\ fst (data_prob_2component_bySumming st')
     = total (likelihood_2component (data st))
         (map (fun c =>
                 match c with
                 | (mu1, (mu2, (sigma1, (sigma2, w)))) =>
                     mkMixture w (mkGauss mu1 sigma1) (mkGauss mu2 sigma2)
                 end)
            (list_prod (cdfInv_Gauss st')
               (list_prod (cdfInv_Gauss st')
                  (list_prod (scale_grid st')
                     (list_prod (scale_grid st') (cdfInv_JBeta st'))))))
       / (20 * 20 * 10 * 10 * 40).
Proof.
  intros Hwf st'.
  pose proof (cdfInv_precompute_wf st Hwf) as Hwf'. fold st' in Hwf'.
  pose proof (cdfInv_precompute_eq st Hwf) as Epre.
  assert (HG : cdfInv_Gauss st' = Gauss_quantiles)
    by (unfold st'; rewrite Epre; reflexivity).
  assert (Hg : cdfInv_gamma st' = gamma_quantiles)
    by (unfold st'; rewrite Epre; reflexivity).
  assert (Hdata : data st' = data st)
    by (unfold st'; rewrite Epre; reflexivity).
  split.
  { rewrite HG, Gauss_quantiles_R. apply map_ext. intros i.
    replace (20 + 1) with 21 by lra. reflexivity. }
  split.
  { intros i Hi. destruct (INR_below i 20 Hi) as [H0 H1].
    simpl INR in H1.
    split; [apply Rdiv_lt_0_compat; lra|].
    apply (Rmult_lt_reg_r (20 + 1)); [lra|]. field_simplify; lra. }
  split; [rewrite Hg; apply gamma_quantiles_R|].
  split.
  { intros i Hi. destruct (INR_below i 10 Hi) as [H0 H1].
    simpl INR in H1. split; [apply Rle_mult_inv_pos; lra|].
    apply (Rmult_lt_reg_r 10); [lra|]. field_simplify; lra. }
  split.
  { unfold scale_grid. rewrite Hg, gamma_quantiles_R, map_map. reflexivity. }
  split.
  { rewrite_with (data_prob_1component_bySumming_eq st' Hwf'). projections.
    rewrite Hdata. unfold cells_1component, mean_grid.
    unfold cdf_Gauss_n, cdf_gamma_n. rewrite !double_of_nat_R.
    cbn [ddiv dmul R_DoubleOps]. unfold CDF_GAUSS_N, CDF_GAMMA_N. simpl INR.
    f_equal. lra. }
  rewrite_with (data_prob_2component_bySumming_eq st' Hwf'). projections.
  rewrite Hdata. unfold cells_2component, mean_grid, weight_grid.
  unfold cdf_Gauss_n, cdf_gamma_n, cdf_JBeta_n. rewrite !double_of_nat_R.
  cbn [ddiv dmul R_DoubleOps]. unfold CDF_GAUSS_N, CDF_GAMMA_N, CDF_JBETA_N.
  simpl INR. f_equal. lra.
Qed.

(** C5: the weight grid holds the Beta(0.5, 0.5) quantiles at the 40
    probabilities 0.5 * i / 40, i = 0..39, all in [0, 0.5); the two-component
    quadrature estimator sums over the cells built from exactly these 40
    weights and divides the sum by 20 * 20 * 10 * 10 * 40, the number of cells
    it has summed: the sum is neither doubled nor extended with the weights
    1 - w. *)
Theorem weight_grid_is_lower_half (st : State R) :
  wf_state st ->
  let st' := snd (cdfInv_precompute st) in
  let weights :=
    map (fun i => gsl_cdf_beta_Pinv (/ 2 * INR i / 40) (/ 2) (/ 2)) (seq 0 40) in
  cdfInv_JBeta st' = weights
  /\ (forall i, (i < 40)%nat -> 0 <= / 2 * INR i / 40 < / 2)
  /\ fst (data_prob_2component_bySumming st')
     = total (likelihood_2component (data st))
         (map (fun c =>
                 match c with
                 | (mu1, (mu2, (sigma1, (sigma2, w)))) =>
                     mkMixture w (mkGauss mu1 sigma1) (mkGauss mu2 sigma2)
                 end)
            (list_prod (mean_grid st')
               (list_prod (mean_grid st')
                  (list_prod (scale_grid st')
                     (list_prod (scale_grid st') weights)))))
       / (20 * 20 * 10 * 10 * 40)
  /\ length (list_prod (mean_grid st')
               (list_prod (mean_grid st')
                  (list_prod (scale_grid st')
                     (list_prod (scale_grid st') weights))))
     = (20 * 20 * 10 * 10 * 40)%nat.
Proof.
  intros Hwf st' weights.
  pose proof (cdfInv_precompute_wf st Hwf) as Hwf'. fold st' in Hwf'.
  pose proof (cdfInv_precompute_eq st Hwf) as Epre.
  assert (HB : cdfInv_JBeta st' = weights).
  { unfold st'. rewrite Epre. cbn [snd cdfInv_JBeta]. apply JBeta_quantiles_R. }
  assert (Hdata : data st' = data st)
    by (unfold st'; rewrite Epre; reflexivity).
  split; [exact HB|]. split.
  { intros i Hi. destruct (INR_below i 40 Hi) as [H0 H1].
    simpl INR in H1. split.
    - apply Rle_mult_inv_pos; lra.
    - apply (Rmult_lt_reg_r 40); [lra|]. field_simplify; lra. }
  split.
  { rewrite_with (data_prob_2component_bySumming_eq st' Hwf'). projections.
    rewrite Hdata. unfold cells_2component, weight_grid. rewrite HB.
    unfold cdf_Gauss_n, cdf_gamma_n, cdf_JBeta_n. rewrite !double_of_nat_R.
    cbn [ddiv dmul R_DoubleOps]. unfold CDF_GAUSS_N, CDF_GAMMA_N, CDF_JBETA_N.
    simpl INR. f_equal. lra. }
  destruct Hwf' as (_ & HG & Hg & _).
  unfold mean_grid, scale_grid, weights.
  rewrite !length_prod, !length_map, length_seq, HG, Hg.
  unfold CDF_GAUSS_N, CDF_GAMMA_N. lia.
Qed.

(** C10: for every weight, every pair of Gaussian parameter records and every
    observation, the factor that the two-component quadrature estimator
    multiplies in, w * density1 + (1 - w) * density2, is equal in exact
    arithmetic to the factor of the two-component Monte Carlo estimator,
    (1 - w) * density2 + w * density1; the products over a dataset agree as
    well, so both estimators integrate the same integrand. *)
Theorem newProb_same_integrand
    (w : R) (cur_params1 cur_params2 : Gauss_params R) (x : R) :
  newProb_bySumming w x cur_params1 cur_params2
  = newProb_bySampling (mkMixture w cur_params1 cur_params2) x
  /\ newProb_bySumming w x cur_params1 cur_params2
     = w * GSLfun_ran_gaussian_pdf x cur_params1
       + (1 - w) * GSLfun_ran_gaussian_pdf x cur_params2
  /\ newProb_bySampling (mkMixture w cur_params1 cur_params2) x
     = (1 - w) * GSLfun_ran_gaussian_pdf x cur_params2
       + w * GSLfun_ran_gaussian_pdf x cur_params1
  /\ (forall xs : list R,
        likelihood_2component xs (mkMixture w cur_params1 cur_params2)
        = likelihood_2component_bySampling xs (mkMixture w cur_params1 cur_params2)).
Proof.
  split; [symmetry; apply newProb_agree|].
  split; [reflexivity|]. split; [reflexivity|].
  intros xs. unfold likelihood_2component, likelihood_2component_bySampling.
  apply fold_left_pointwise. intros a y.
  rewrite newProb_agree. reflexivity.
Qed.

End RealClaims.

Section Binary64Claims.

Context {gsl : GSLfun PrimFloat.float}.

Lemma fst_draw_float (f : rng -> PrimFloat.float * rng) (st : State PrimFloat.float) :
  fst (draw f st) = fst (f (gen st)).
Proof. unfold draw. destruct (f (gen st)); reflexivity. Qed.

Lemma prior_Gauss_params_sample_scale (st : State PrimFloat.float) :
  (forall a b g, float_positive_finite (fst (GSLfun_ran_gamma a b g)) = true) ->
  float_positive_finite (sigma (fst (prior_Gauss_params_sample st))) = true.
Proof.
  intros Hgamma. unfold prior_Gauss_params_sample.
  rewrite !bind_run. unfold ret. cbn [fst sigma].
  apply sigma_of_precision_positive_finite. rewrite fst_draw_float. apply Hgamma.
Qed.

Lemma nth_map_seq_float (f : nat -> PrimFloat.float) (n i : nat) :
  (i < n)%nat -> nth i (map f (seq 0 n)) d0 = f i.
Proof.
  intros Hi.
  rewrite (nth_indep _ d0 (f 0%nat)) by (rewrite length_map, length_seq; exact Hi).
  rewrite (map_nth f (seq 0 n) 0%nat i), seq_nth by exact Hi. reflexivity.
Qed.

(** The probabilities of the precision nodes, as the division [i / 10] of
    binary64 gives them. *)
Lemma gamma_probability_float (s : nat) :
  (1 <= s < 10)%nat ->
  PrimFloat.ltb PrimFloat.zero (gamma_probability s) = true
  /\ PrimFloat.ltb (gamma_probability s) PrimFloat.one = true.
Proof.
  intros Hs.
  assert (Hcases : In s [1; 2; 3; 4; 5; 6; 7; 8; 9]%nat) by (simpl; lia).
  simpl in Hcases.
  repeat (destruct Hcases as [<-|Hcases]; [split; vm_compute; reflexivity|]).
  destruct Hcases.
Qed.

Lemma gamma_probability_float_0 :
  gamma_probability (D := PrimFloat.float) 0 = PrimFloat.zero.
Proof. vm_compute. reflexivity. Qed.

Lemma scale_grid_float (st : State PrimFloat.float) (s : nat) :
  wf_state st -> (s < 10)%nat ->
  nth s (scale_grid (snd (cdfInv_precompute st))) d0
  = sigma_of_precision
      (gsl_cdf_gamma_Pinv (gamma_probability s) sigma_prior_param_a sigma_prior_param_b).
Proof.
  intros Hwf Hs. unfold scale_grid.
  rewrite_with (cdfInv_precompute_eq st Hwf). cbn [snd cdfInv_gamma].
  unfold gamma_quantiles, CDF_GAMMA_N. rewrite map_map.
  apply nth_map_seq_float. exact Hs.
Qed.

Lemma length_scale_grid_float (st : State PrimFloat.float) :
  wf_state st -> length (scale_grid (snd (cdfInv_precompute st))) = 10%nat.
Proof.
  intros Hwf. unfold scale_grid.
  rewrite_with (cdfInv_precompute_eq st Hwf). cbn [snd cdfInv_gamma].
  unfold gamma_quantiles, CDF_GAMMA_N. rewrite !length_map, length_seq. reflexivity.
Qed.

(** C6, as amended: in binary64 every Gaussian parameter record the program
    builds has a scale greater than 0, and all scales are finite but one.
    When the Gamma deviates are positive and finite, the records drawn by the
    two prior samplers have a positive finite scale.  When the Gamma quantile
    function is positive and finite on (0, 1) and is 0 at probability 0, the
    scale grid holds positive finite scales at its nodes 1 to 9 and
    1/sqrt(0) = +infinity at node 0.  The scale of every grid cell is a node
    of the scale grid, hence greater than 0. *)
Theorem scale_positive_from_positive_precision (st : State PrimFloat.float) :
  wf_state st ->
  (forall a b g, float_positive_finite (fst (GSLfun_ran_gamma a b g)) = true) ->
  (forall x a b,
     PrimFloat.ltb PrimFloat.zero x = true -> PrimFloat.ltb x PrimFloat.one = true ->
     float_positive_finite (gsl_cdf_gamma_Pinv x a b) = true) ->
  (forall a b, gsl_cdf_gamma_Pinv PrimFloat.zero a b = PrimFloat.zero) ->
  let st' := snd (cdfInv_precompute st) in
  float_positive_finite (sigma (fst (prior_Gauss_params_sample st))) = true
  /\ float_positive_finite (sigma (Gauss1 (fst (prior_Gauss_mixture_params_sample st))))
     = true
  /\ float_positive_finite (sigma (Gauss2 (fst (prior_Gauss_mixture_params_sample st))))
     = true
  /\ nth 0 (scale_grid st') d0 = PrimFloat.infinity
  /\ (forall s, (1 <= s < 10)%nat ->
        float_positive_finite (nth s (scale_grid st') d0) = true)
  /\ (forall cell, In cell (cells_1component st') ->
        In (sigma cell) (scale_grid st')
        /\ PrimFloat.ltb PrimFloat.zero (sigma cell) = true)
  /\ (forall cell, In cell (cells_2component st') ->
        (In (sigma (Gauss1 cell)) (scale_grid st')
         /\ PrimFloat.ltb PrimFloat.zero (sigma (Gauss1 cell)) = true)
        /\ (In (sigma (Gauss2 cell)) (scale_grid st')
            /\ PrimFloat.ltb PrimFloat.zero (sigma (Gauss2 cell)) = true)).
Proof.
  intros Hwf Hgamma Hquantile Hzero st'.
  assert (Hnode0 : nth 0 (scale_grid st') d0 = PrimFloat.infinity).
  { unfold st'. rewrite (scale_grid_float st 0 Hwf) by lia.
    rewrite gamma_probability_float_0, Hzero. reflexivity. }
  assert (Hnodes : forall s, (1 <= s < 10)%nat ->
            float_positive_finite (nth s (scale_grid st') d0) = true).
  { intros s Hs. unfold st'. rewrite (scale_grid_float st s Hwf) by lia.
    apply sigma_of_precision_positive_finite.
    destruct (gamma_probability_float s Hs) as [H0 H1].
    apply Hquantile; assumption. }
  assert (Hall : forall x, In x (scale_grid st') -> PrimFloat.ltb PrimFloat.zero x = true).
  { intros x Hin. apply (In_nth _ _ d0) in Hin. destruct Hin as (s & Hs & <-).
    unfold st' in Hs. rewrite (length_scale_grid_float st Hwf) in Hs.
    destruct s as [|s].
    - rewrite Hnode0. reflexivity.
    - pose proof (Hnodes (S s) ltac:(lia)) as Hpf.
      unfold float_positive_finite in Hpf. apply andb_prop in Hpf. apply Hpf. }
  split; [apply prior_Gauss_params_sample_scale; exact Hgamma|].
  split.
  { unfold prior_Gauss_mixture_params_sample. rewrite !bind_run.
    unfold ret. cbn [fst Gauss1]. apply prior_Gauss_params_sample_scale. exact Hgamma. }
  split.
  { unfold prior_Gauss_mixture_params_sample. rewrite !bind_run.
    unfold ret. cbn [fst Gauss2]. apply prior_Gauss_params_sample_scale. exact Hgamma. }
  split; [exact Hnode0|]. split; [exact Hnodes|].
  split.
  { intros cell Hin. unfold cells_1component in Hin.
    apply in_map_iff in Hin. destruct Hin as ([m s] & <- & Hin).
    apply in_prod_iff in Hin. cbn [sigma fst snd].
    split; [exact (proj2 Hin)|apply Hall; exact (proj2 Hin)]. }
  intros cell Hin. unfold cells_2component in Hin.
  apply in_map_iff in Hin.
  destruct Hin as ([m1 [m2 [s1 [s2 w]]]] & <- & Hin).
  apply in_prod_iff in Hin. destruct Hin as [_ Hin].
  apply in_prod_iff in Hin. destruct Hin as [_ Hin].
  apply in_prod_iff in Hin. destruct Hin as [H1 Hin].
  apply in_prod_iff in Hin. destruct Hin as [H2 _].
  cbn [sigma Gauss1 Gauss2].
  split; (split; [assumption|apply Hall; assumption]).
Qed.

End Binary64Claims.

(** ** The command line *)

Section CommandLine.

Context {D : Type} {ops : DoubleOps D} {gsl : GSLfun D}.

Lemma main_proceeds (argv : list string) (datasets_n : N) :
  parse_args argv = Proceed datasets_n ->
  main argv = (0%Z, out (snd (main_body datasets_n init_state))).
Proof. intros Hparse. unfold main. rewrite Hparse. reflexivity. Qed.

Lemma main_usage (argv : list string) (prog : string) :
  parse_args argv = UsageExit prog -> main argv = (64%Z, [OUsage prog]).
Proof. intros Hparse. unfold main. rewrite Hparse. reflexivity. Qed.

(** Without an argument the driver runs 10 trials per model. *)
Lemma main_default (prog : string) :
  main [prog] = (0%Z, out (snd (main_body 10 init_state))).
Proof. apply main_proceeds. reflexivity. Qed.

(** More than one argument: usage message, status 64, nothing else. *)
Lemma main_too_many_arguments (prog a1 a2 : string) (rest : list string) :
  main (prog :: a1 :: a2 :: rest) = (64%Z, [OUsage prog]).
Proof. apply main_usage. reflexivity. Qed.

(** An argument that [atoi] reads as 0 (no digits, or zero): usage message and
    status 64. *)
Lemma main_zero_argument (prog arg : string) :
  atoi arg = 0%Z -> main [prog; arg] = (64%Z, [OUsage prog]).
Proof.
  intros Hzero. apply main_usage. unfold parse_args. rewrite Hzero. reflexivity.
Qed.

Example atoi_reads_a_prefix :
  atoi "12abc" = 12%Z /\ atoi "  +7" = 7%Z /\ atoi "abc" = 0%Z /\ atoi "" = 0%Z.
Proof. repeat split. Qed.

(** Digits followed by anything are accepted as their value. *)
Example parse_args_trailing_characters :
  parse_args ["Gaussian_poolOrNot"; "12abc"]%string = Proceed 12.
Proof. reflexivity. Qed.

(** Beyond the range of [long] the value saturates before it is cut to 32
    bits: 2^63 is read as [LONG_MAX], whose low 32 bits are all set, and
    -2^63 - 1 as [LONG_MIN], whose low 32 bits are 0. *)
Example atoi_saturates :
  atoi "9223372036854775808" = (-1)%Z
  /\ parse_args ["Gaussian_poolOrNot"; "9223372036854775808"]%string
     = Proceed 4294967295
  /\ atoi "-9223372036854775809" = 0%Z
  /\ parse_args ["Gaussian_poolOrNot"; "-9223372036854775809"]%string
     = UsageExit "Gaussian_poolOrNot".
Proof. repeat split. Qed.

(** C8, the failing input: the argument "-5" is not a positive integer, yet
    the program does not print the usage message nor exit with status 64:
    [atoi] gives -5, which stored in the unsigned [datasets_n] is 4294967291,
    not zero, so the driver starts (announcing "-5 datasets") and runs
    4294967291 trials per model. *)
Theorem negative_argument_runs_the_driver :
  atoi "-5" = (-5)%Z
  /\ parse_args ["Gaussian_poolOrNot"; "-5"]%string = Proceed 4294967291
  /\ int_of_uint 4294967291 = (-5)%Z
  /\ main ["Gaussian_poolOrNot"; "-5"]%string
     = (0%Z, out (snd (main_body 4294967291 init_state))).
Proof.
  split; [reflexivity|]. split; [reflexivity|]. split; [reflexivity|].
  apply main_proceeds. reflexivity.
Qed.

End CommandLine.

(** ** Instances of the claims, and the inputs on which three of them fail *)

Section Instances.

Local Existing Instance gsl_double.

Local Open Scope R_scope.

(** The theorems above that have hypotheses, applied to the initial state of
    the program run in exact arithmetic against the test double. *)

Lemma gsl_double_gamma_deviate (a b : PrimFloat.float) (g : N) :
  float_positive_finite (fst (GSLfun_ran_gamma (GSLfun := gsl_double) a b g)) = true.
Proof. reflexivity. Defined.

Lemma gsl_double_gamma_quantile (x a b : PrimFloat.float) :
  PrimFloat.ltb PrimFloat.zero x = true -> PrimFloat.ltb x PrimFloat.one = true ->
  float_positive_finite (gsl_cdf_gamma_Pinv (GSLfun := gsl_double) x a b) = true.
Proof.
  intros H0 H1. unfold float_positive_finite. cbn [gsl_cdf_gamma_Pinv gsl_double].
  rewrite H0, (ltb_one_infinity x H1). reflexivity.
Qed.

Lemma gsl_double_gamma_quantile_0 (a b : PrimFloat.float) :
  gsl_cdf_gamma_Pinv (GSLfun := gsl_double) PrimFloat.zero a b = PrimFloat.zero.
Proof. reflexivity. Defined.

Lemma init_state_wf_float :
  wf_state (D := PrimFloat.float) (gsl := gsl_double) init_state.
Proof. repeat split. Defined.

Lemma init_state_wf_double : wf_state (D := R) (gsl := gsl_double) init_state.
Proof. repeat split. Defined.

Lemma bySumming_1component_is_grid_sum_witness :
  let st := init_state (D := R) (gsl := gsl_double) in
  wf_state st
  /\ (data_prob_1component_bySumming st
      = (total
           (fun cell =>
              fold_left (fun prob x => prob * GSLfun_ran_gaussian_pdf x cell)%D
                (data st) d1)
           (map (fun c => mkGauss (fst c) (snd c))
              (list_prod (cdfInv_Gauss st) (map sigma_of_precision (cdfInv_gamma st))))
         / (double_of_nat 20 * double_of_nat 10), st)%D
      /\ length (data st) = 40%nat
      /\ length (list_prod (cdfInv_Gauss st) (map sigma_of_precision (cdfInv_gamma st)))
         = (20 * 10)%nat).
Proof.
  intros st. split; [exact init_state_wf_double|].
  exact (bySumming_1component_is_grid_sum st init_state_wf_double).
Defined.

Lemma bySumming_2component_is_grid_sum_witness :
  let st := init_state (D := R) (gsl := gsl_double) in
  wf_state st
  /\ (data_prob_2component_bySumming st
      = (total
           (fun cell =>
              fold_left
                (fun prob x =>
                   prob * (mixCof cell * GSLfun_ran_gaussian_pdf x (Gauss1 cell)
                           + (d1 - mixCof cell)
                             * GSLfun_ran_gaussian_pdf x (Gauss2 cell)))%D
                (data st) d1)
           (map (fun c =>
                   match c with
                   | (mu1, (mu2, (sigma1, (sigma2, w)))) =>
                       mkMixture w (mkGauss mu1 sigma1) (mkGauss mu2 sigma2)
                   end)
              (list_prod (cdfInv_Gauss st)
                 (list_prod (cdfInv_Gauss st)
                    (list_prod (map sigma_of_precision (cdfInv_gamma st))
                       (list_prod (map sigma_of_precision (cdfInv_gamma st))
                          (cdfInv_JBeta st))))))
         / (double_of_nat 20 * double_of_nat 20 * double_of_nat 10
            * double_of_nat 10 * double_of_nat 40), st)%D
      /\ length (data st) = 40%nat
      /\ length (cells_2component st) = (20 * 20 * 10 * 10 * 40)%nat).
Proof.
  intros st. split; [exact init_state_wf_double|].
  exact (bySumming_2component_is_grid_sum st init_state_wf_double).
Defined.

Lemma bySampling_is_mean_over_draws_witness :
  let st := init_state (D := R) (gsl := gsl_double) in
  length (data st) = 40%nat
  /\ (let rounds := N.to_nat sampleRepeatNum in
      let draws1 := repeatM rounds prior_Gauss_params_sample st in
      let draws2 := repeatM rounds prior_Gauss_mixture_params_sample st in
      sampleRepeatNum = 2000000%N
      /\ length (fst draws1) = rounds
      /\ length (fst draws2) = rounds
      /\ data_prob_1component_bySampling st
         = (total
              (fun params =>
                 fold_left
                   (fun curProb x => curProb * GSLfun_ran_gaussian_pdf x params)%D
                   (data st) d1)
              (fst draws1)
            / double_of_uint sampleRepeatNum, snd draws1)%D
      /\ data_prob_2component_bySampling st
         = (total
              (fun params =>
                 fold_left
                   (fun curProb x =>
                      curProb * ((d1 - mixCof params)
                                   * GSLfun_ran_gaussian_pdf x (Gauss2 params)
                                 + mixCof params
                                   * GSLfun_ran_gaussian_pdf x (Gauss1 params)))%D
                   (data st) d1)
              (fst draws2)
            / double_of_uint sampleRepeatNum, snd draws2)%D).
Proof.
  intros st. split; [reflexivity|].
  exact (bySampling_is_mean_over_draws st eq_refl).
Defined.

Lemma grid_builder_nodes_witness :
  let st := init_state (D := R) (gsl := gsl_double) in
  wf_state st
  /\ (let st' := snd (cdfInv_precompute st) in
      cdfInv_Gauss st'
      = map (fun i => gsl_cdf_gaussian_Pinv ((INR i + 1) / (20 + 1)) 4) (seq 0 20)
      /\ (forall i, (i < 20)%nat -> 0 < (INR i + 1) / (20 + 1) < 1)
      /\ cdfInv_gamma st'
         = map (fun i => gsl_cdf_gamma_Pinv (INR i / 10) (/ 2) 2) (seq 0 10)
      /\ (forall i, (i < 10)%nat -> 0 <= INR i / 10 < 1)
      /\ scale_grid st'
         = map (fun i => 1 / sqrt (gsl_cdf_gamma_Pinv (INR i / 10) (/ 2) 2)) (seq 0 10)
      /\ fst (data_prob_1component_bySumming st')
         = total (likelihood_1component (data st))
             (map (fun c => mkGauss (fst c) (snd c))
                (list_prod (cdfInv_Gauss st') (scale_grid st')))
           / (20 * 10)
      /\ fst (data_prob_2component_bySumming st')
         = total (likelihood_2component (data st))
             (map (fun c =>
                     match c with
                     | (mu1, (mu2, (sigma1, (sigma2, w)))) =>
                         mkMixture w (mkGauss mu1 sigma1) (mkGauss mu2 sigma2)
                     end)
                (list_prod (cdfInv_Gauss st')
                   (list_prod (cdfInv_Gauss st')
                      (list_prod (scale_grid st')
                         (list_prod (scale_grid st') (cdfInv_JBeta st'))))))
           / (20 * 20 * 10 * 10 * 40)).
Proof.
  intros st. split; [exact init_state_wf_double|].
  exact (grid_builder_nodes st init_state_wf_double).
Defined.

Lemma weight_grid_is_lower_half_witness :
  let st := init_state (D := R) (gsl := gsl_double) in
  wf_state st
  /\ (let st' := snd (cdfInv_precompute st) in
      let weights :=
        map (fun i => gsl_cdf_beta_Pinv (/ 2 * INR i / 40) (/ 2) (/ 2)) (seq 0 40) in
      cdfInv_JBeta st' = weights
      /\ (forall i, (i < 40)%nat -> 0 <= / 2 * INR i / 40 < / 2)
      /\ fst (data_prob_2component_bySumming st')
         = total (likelihood_2component (data st))
             (map (fun c =>
                     match c with
                     | (mu1, (mu2, (sigma1, (sigma2, w)))) =>
                         mkMixture w (mkGauss mu1 sigma1) (mkGauss mu2 sigma2)
                     end)
                (list_prod (mean_grid st')
                   (list_prod (mean_grid st')
                      (list_prod (scale_grid st')
                         (list_prod (scale_grid st') weights)))))
           / (20 * 20 * 10 * 10 * 40)
      /\ length (list_prod (mean_grid st')
                   (list_prod (mean_grid st')
                      (list_prod (scale_grid st')
                         (list_prod (scale_grid st') weights))))
         = (20 * 20 * 10 * 10 * 40)%nat).
Proof.
  intros st. split; [exact init_state_wf_double|].
  exact (weight_grid_is_lower_half st init_state_wf_double).
Defined.

Lemma scale_positive_from_positive_precision_witness :
  let st := init_state (D := PrimFloat.float) (gsl := gsl_double) in
  wf_state st
  /\ (forall a b g, float_positive_finite (fst (GSLfun_ran_gamma a b g)) = true)
  /\ (forall x a b,
        PrimFloat.ltb PrimFloat.zero x = true -> PrimFloat.ltb x PrimFloat.one = true ->
        float_positive_finite (gsl_cdf_gamma_Pinv x a b) = true)
  /\ (forall a b, gsl_cdf_gamma_Pinv PrimFloat.zero a b = PrimFloat.zero)
  /\ (let st' := snd (cdfInv_precompute st) in
      float_positive_finite (sigma (fst (prior_Gauss_params_sample st))) = true
      /\ float_positive_finite
           (sigma (Gauss1 (fst (prior_Gauss_mixture_params_sample st)))) = true
      /\ float_positive_finite
           (sigma (Gauss2 (fst (prior_Gauss_mixture_params_sample st)))) = true
      /\ nth 0 (scale_grid st') d0 = PrimFloat.infinity
      /\ (forall s, (1 <= s < 10)%nat ->
            float_positive_finite (nth s (scale_grid st') d0) = true)
      /\ (forall cell, In cell (cells_1component st') ->
            In (sigma cell) (scale_grid st')
            /\ PrimFloat.ltb PrimFloat.zero (sigma cell) = true)
      /\ (forall cell, In cell (cells_2component st') ->
            (In (sigma (Gauss1 cell)) (scale_grid st')
             /\ PrimFloat.ltb PrimFloat.zero (sigma (Gauss1 cell)) = true)
            /\ (In (sigma (Gauss2 cell)) (scale_grid st')
                /\ PrimFloat.ltb PrimFloat.zero (sigma (Gauss2 cell)) = true))).
Proof.
  intros st. split; [exact init_state_wf_float|].
  split; [exact gsl_double_gamma_deviate|].
  split; [exact gsl_double_gamma_quantile|].
  split; [exact gsl_double_gamma_quantile_0|].
  exact (scale_positive_from_positive_precision st init_state_wf_float
           gsl_double_gamma_deviate gsl_double_gamma_quantile
           gsl_double_gamma_quantile_0).
Defined.


Lemma estimators_effects_witness :
  let st := init_state (D := R) (gsl := gsl_double) in
  wf_state st
  /\ (snd (data_prob_1component_bySumming st) = st
      /\ snd (data_prob_2component_bySumming st) = st
      /\ (v1 <- data_prob_1component_bySumming ;;
          v2 <- data_prob_1component_bySumming ;; ret (v1, v2)) st
         = ((fst (data_prob_1component_bySumming st),
             fst (data_prob_1component_bySumming st)), st)
      /\ (v1 <- data_prob_2component_bySumming ;;
          v2 <- data_prob_2component_bySumming ;; ret (v1, v2)) st
         = ((fst (data_prob_2component_bySumming st),
             fst (data_prob_2component_bySumming st)), st)
      /\ snd (data_prob_1component_bySampling st)
         = set_gen st (gen (snd (data_prob_1component_bySampling st)))
      /\ snd (data_prob_2component_bySampling st)
         = set_gen st (gen (snd (data_prob_2component_bySampling st)))
      /\ (forall st' : State R,
            data st' = data st -> gen st' = gen st ->
            fst (data_prob_1component_bySampling st')
            = fst (data_prob_1component_bySampling st)
            /\ fst (data_prob_2component_bySampling st')
               = fst (data_prob_2component_bySampling st))).
Proof.
  intros st. split; [exact init_state_wf_double|].
  exact (estimators_effects st init_state_wf_double).
Defined.

(** C6, the input on which the claim fails: in binary64 arithmetic, with a
    Gamma quantile function that is 0 at probability 0, the first node of the
    precision grid is 0 and the scale of the grid cells built from it is
    1/sqrt(0), which is infinite: not a finite positive number. *)
Lemma scale_at_probability_0_is_infinite :
  nth 0 (cdfInv_gamma
           (snd (cdfInv_precompute (D := PrimFloat.float) (gsl := gsl_double) init_state)))
      d0
  = PrimFloat.zero
  /\ sigma (nth 0 (cells_1component
                     (snd (cdfInv_precompute (D := PrimFloat.float) (gsl := gsl_double)
                             init_state)))
                (mkGauss d0 d0))
     = PrimFloat.infinity
  /\ float_positive_finite
       (sigma (nth 0 (cells_1component
                        (snd (cdfInv_precompute (D := PrimFloat.float)
                                (gsl := gsl_double) init_state)))
                   (mkGauss d0 d0)))
     = false.
Proof. vm_compute. repeat split. Qed.


(** C9, the input on which the claim fails: a call of the one-component Monte
    Carlo estimator on the initial state draws 4,000,000 deviates, so the
    state of the generator after the call is not the state before it. *)
Lemma bySampling_moves_the_generator :
  gen (init_state (D := R) (gsl := gsl_double)) = 0%N
  /\ gen (snd (data_prob_1component_bySampling
                 (init_state (D := R) (gsl := gsl_double)))) = 4000000%N
  /\ snd (data_prob_1component_bySampling (init_state (D := R) (gsl := gsl_double)))
     <> init_state (D := R) (gsl := gsl_double).
Proof.
  assert (Hgen : gen (snd (data_prob_1component_bySampling
                             (init_state (D := R) (gsl := gsl_double)))) = 4000000%N).
  { rewrite_with (data_prob_1component_bySampling_eq
                    (init_state (D := R) (gsl := gsl_double)) eq_refl).
    projections. rewrite repeatM_prior_Gauss_params_sample_double.
    rewrite N2Nat.id. reflexivity. }
  split; [reflexivity|]. split; [exact Hgen|].
  intros Heq. rewrite Heq in Hgen. discriminate Hgen.
Qed.


End Instances.

(* ================================================================== *)
(** * Part IV: further properties of the program *)
(* ================================================================== *)

(** ** Arrays filled from a list of values *)

Lemma store_all {A} (xs : list A) :
  forall (i : nat) (l : list A),
    i + length xs <= length l ->
    fold_left (fun l jx => <[fst jx := snd jx]> l) (combine (seq i (length xs)) xs) l
    = take i l ++ xs ++ drop (i + length xs) l.
Proof.
  induction xs as [|x xs IH]; intros i l Hlen.
  - simpl. rewrite Nat.add_0_r. symmetry. apply take_drop.
  - simpl in Hlen. cbn [length seq combine fold_left fst snd].
    rewrite IH by (rewrite length_insert; lia).
    rewrite (take_S_r _ i x) by (apply list_lookup_insert_eq; lia).
    rewrite take_insert_ge by lia.
    rewrite drop_insert_lt by lia.
    rewrite <- app_assoc.
    replace (S i + length xs) with (i + S (length xs)) by lia. reflexivity.
Qed.

Lemma store_whole {A} (xs l : list A) :
  length xs = length l ->
  fold_left (fun l jx => <[fst jx := snd jx]> l) (combine (seq 0 (length l)) xs) l = xs.
Proof.
  intros Hlen. rewrite <- Hlen. rewrite store_all by lia.
  rewrite take_0, Nat.add_0_l, Hlen, drop_all, app_nil_r. reflexivity.
Qed.

Section Generators.

Context {D : Type} {ops : DoubleOps D} {gsl : GSLfun D}.

Local Open Scope double_scope.

Lemma repeatM_succ {A} (c : M D A) (n : nat) (st : State D) :
  repeatM (S n) c st
  = (fst (c st) :: fst (repeatM n c (snd (c st))), snd (repeatM n c (snd (c st)))).
Proof. simpl. rewrite !bind_run. reflexivity. Qed.

Lemma bind_assoc {A B C} (c : M D A) (f : A -> M D B) (g : B -> M D C) (st : State D) :
  bind (bind c f) g st = bind c (fun a => bind (f a) g) st.
Proof. rewrite !bind_run. reflexivity. Qed.

Lemma for_from_pointwise {A} (body body' : nat -> A -> M D A) :
  (forall i a st, body i a st = body' i a st) ->
  forall k i a st, for_from k i body a st = for_from k i body' a st.
Proof.
  intros Hbody. induction k as [|k IH]; intros i a st; [reflexivity|].
  cbn [for_from]. rewrite !bind_run, Hbody. apply IH.
Qed.

Lemma reads_gen_mixture_draw (params : Gauss_mixture_params D) :
  reads_gen (mixture_draw params).
Proof.
  unfold mixture_draw.
  apply reads_gen_bind; [apply reads_gen_draw|intros u]. apply reads_gen_draw.
Qed.

Lemma mixture_draw_frame (params : Gauss_mixture_params D) (st : State D) :
  same_but_gen st (snd (mixture_draw params st)).
Proof.
  revert st. unfold mixture_draw.
  apply bind_same_but_gen; [apply draw_same_but_gen|intros u st].
  apply draw_same_but_gen.
Qed.

(** A loop that stores one result of [c] after the other into the data buffer,
    [c] touching the generator only: the values stored are those of the
    successive runs of [c]. *)
Lemma for_from_store (c : M D D) :
  (forall st, same_but_gen st (snd (c st))) ->
  reads_gen c ->
  forall k i st,
    for_from k i
      (fun i _ => x <- c ;; modify (fun st => set_data st (<[i := x]> (data st)))) tt st
    = (tt, set_data (snd (repeatM k c st))
             (fold_left (fun l jx => <[fst jx := snd jx]> l)
                (combine (seq i k) (fst (repeatM k c st))) (data st))).
Proof.
  intros Hframe Hreads. induction k as [|k IH]; intros i st.
  - simpl. unfold ret. rewrite set_data_id. reflexivity.
  - cbn [for_from]. rewrite bind_run, bind_run.
    rewrite IH. rewrite repeatM_succ. projections.
    pose proof (Hframe st) as F.
    set (x := fst (c st)) in *. set (st1 := snd (c st)) in *.
    set (st2 := set_data st1 (<[i := x]> (data st1))).
    change (snd (modify (fun st0 => set_data st0 (<[i := x]> (data st0))) st1))
      with st2.
    assert (Hg : gen st2 = gen st1) by reflexivity.
    destruct (reads_gen_repeatM c k Hreads st2 st1 Hg) as [Hv Hgen].
    pose proof (repeatM_same_but_gen c k Hframe st2) as F2.
    pose proof (repeatM_same_but_gen c k Hframe st1) as F1.
    rewrite Hv. cbn [seq combine fold_left fst snd].
    assert (Hd2 : data st2 = <[i := x]> (data st))
      by (unfold st2; cbn [data set_data]; rewrite (same_but_gen_data _ _ F);
          reflexivity).
    rewrite Hd2. f_equal. rewrite F2, F1, Hgen. reflexivity.
Qed.

Lemma for_store (c : M D D) (st : State D) :
  (forall st, same_but_gen st (snd (c st))) ->
  reads_gen c ->
  for_ (length (data st))
    (fun i _ => x <- c ;; modify (fun st => set_data st (<[i := x]> (data st)))) tt st
  = (tt, set_data (snd (repeatM (length (data st)) c st))
           (fst (repeatM (length (data st)) c st))).
Proof.
  intros Hframe Hreads. unfold for_. rewrite (for_from_store c Hframe Hreads).
  rewrite store_whole by apply length_repeatM. reflexivity.
Qed.

Lemma data_generate_1component_draws (params : Gauss_params D) (st : State D) :
  length (data st) = 40 ->
  data_generate_1component params st
  = (tt, set_data (snd (repeatM 40 (draw (GSLfun_ran_gaussian params)) st))
           (fst (repeatM 40 (draw (GSLfun_ran_gaussian params)) st))).
Proof.
  intros Hlen. unfold data_generate_1component, dataN, DATA_N. rewrite <- Hlen.
  apply for_store; [intros st'; apply draw_same_but_gen|apply reads_gen_draw].
Qed.

Lemma data_generate_2component_draws (params : Gauss_mixture_params D) (st : State D) :
  length (data st) = 40 ->
  data_generate_2component params st
  = (tt, set_data (snd (repeatM 40 (mixture_draw params) st))
           (fst (repeatM 40 (mixture_draw params) st))).
Proof.
  intros Hlen. unfold data_generate_2component, dataN, DATA_N. rewrite <- Hlen.
  transitivity
    (for_ (length (data st))
       (fun i _ => x <- mixture_draw params ;;
                   modify (fun st => set_data st (<[i := x]> (data st)))) tt st).
  - unfold for_. apply for_from_pointwise. intros i a st'.
    unfold mixture_draw. symmetry. apply bind_assoc.
  - exact (for_store (mixture_draw params) st (mixture_draw_frame params)
             (reads_gen_mixture_draw params)).
Qed.

Lemma repeatM_pointwise {A} (c c' : M D A) :
  (forall st, c st = c' st) ->
  forall n st, repeatM n c st = repeatM n c' st.
Proof.
  intros Hc. induction n as [|n IH]; intros st; [reflexivity|].
  rewrite !repeatM_succ, Hc, IH. reflexivity.
Qed.

(** X1: [data_generate_1component] overwrites the whole data buffer with 40
    successive Gaussian deviates of the given parameters, whatever the buffer
    held before; apart from the buffer only the generator changes, by those
    40 draws. *)
Theorem data_generate_1component_fills (params : Gauss_params D) (st : State D) :
  length (data st) = 40 ->
  let draws := repeatM 40 (draw (GSLfun_ran_gaussian params)) st in
  data_generate_1component params st = (tt, set_data (snd draws) (fst draws))
  /\ length (fst draws) = 40
  /\ snd draws = set_gen st (gen (snd draws)).
Proof.
  intros Hlen draws.
  split; [|split].
  - exact (data_generate_1component_draws params st Hlen).
  - apply length_repeatM.
  - apply repeatM_same_but_gen. intros st'. apply draw_same_but_gen.
Qed.

(** X2: [data_generate_2component] overwrites the whole data buffer with 40
    successive observations, each drawn by first taking a uniform deviate [u]
    and then a Gaussian deviate of component 1 if [u < mixCof] and of
    component 2 otherwise; apart from the buffer only the generator
    changes. *)
Theorem data_generate_2component_fills (params : Gauss_mixture_params D) (st : State D) :
  length (data st) = 40 ->
  let draws :=
    repeatM 40
      (u <- draw gsl_ran_flat01 ;;
       draw (GSLfun_ran_gaussian
               (if dlt u (mixCof params) then Gauss1 params else Gauss2 params))) st in
  data_generate_2component params st = (tt, set_data (snd draws) (fst draws))
  /\ length (fst draws) = 40
  /\ snd draws = set_gen st (gen (snd draws)).
Proof.
  intros Hlen draws.
  split; [|split].
  - exact (data_generate_2component_draws params st Hlen).
  - apply length_repeatM.
  - apply repeatM_same_but_gen. exact (mixture_draw_frame params).
Qed.

End Generators.

Section MoreOfTheProgram.

Context {D : Type} {ops : DoubleOps D} {gsl : GSLfun D}.

Local Open Scope double_scope.

(** X3: the grids that [cdfInv_precompute] builds do not depend on the state
    it is run in: it overwrites every entry of the three tables, leaves the
    data, the generator and the output alone, and running it a second time
    changes nothing. *)
Theorem cdfInv_precompute_overwrites (st st' : State D) :
  wf_state st -> wf_state st' ->
  cdfInv_Gauss (snd (cdfInv_precompute st)) = cdfInv_Gauss (snd (cdfInv_precompute st'))
  /\ cdfInv_gamma (snd (cdfInv_precompute st)) = cdfInv_gamma (snd (cdfInv_precompute st'))
  /\ cdfInv_JBeta (snd (cdfInv_precompute st)) = cdfInv_JBeta (snd (cdfInv_precompute st'))
  /\ data (snd (cdfInv_precompute st)) = data st
  /\ gen (snd (cdfInv_precompute st)) = gen st
  /\ out (snd (cdfInv_precompute st)) = out st
  /\ cdfInv_precompute (snd (cdfInv_precompute st)) = (tt, snd (cdfInv_precompute st)).
Proof.
  intros Hwf Hwf'.
  pose proof (cdfInv_precompute_wf st Hwf) as Hwf1.
  pose proof (cdfInv_precompute_eq _ Hwf1) as E2.
  pose proof (cdfInv_precompute_eq st Hwf) as E.
  pose proof (cdfInv_precompute_eq st' Hwf') as E'.
  rewrite E2. rewrite E, E'. projections.
  repeat split; reflexivity.
Qed.

Lemma data_sample_mean_variance_eq (st : State D) :
  length (data st) = 40 ->
  data_sample_mean st = (total (fun x => x) (data st) / double_of_nat 40, st)
  /\ data_sample_variance st
     = (total (fun x => (x - total (fun x => x) (data st) / double_of_nat 40)
                        * (x - total (fun x => x) (data st) / double_of_nat 40))
          (data st) / double_of_nat 40, st).
Proof.
  intros Hlen.
  assert (Hmean : data_sample_mean st
                  = (total (fun x => x) (data st) / double_of_nat 40, st)).
  { unfold data_sample_mean. rewrite bind_run.
    unfold dataN at 1, DATA_N. rewrite <- Hlen at 1.
    rewrite (for_read (data st) (fun acc x => acc + x))
      by (intros i a; reflexivity).
    reflexivity. }
  split; [exact Hmean|].
  unfold data_sample_variance. rewrite bind_run, Hmean. projections.
  rewrite bind_run. unfold dataN at 1, DATA_N. rewrite <- Hlen at 1.
  rewrite (for_read (data st)
             (fun acc x => acc + (x - total (fun x => x) (data st) / double_of_nat 40)
                                 * (x - total (fun x => x) (data st) / double_of_nat 40)))
    by (intros i a; reflexivity).
  reflexivity.
Qed.

(** X4: [data_sample_mean] returns the sum of the 40 observations, taken in
    order, divided by 40; [data_sample_variance] returns the sum of the
    squared differences from that mean divided by 40 (the population
    variance: the divisor is the sample size, not one less).  Neither changes
    the state. *)
Theorem data_sample_mean_variance (st : State D) :
  length (data st) = 40 ->
  let mean := total (fun x => x) (data st) / double_of_nat 40 in
  data_sample_mean st = (mean, st)
  /\ data_sample_variance st
     = (total (fun x => (x - mean) * (x - mean)) (data st) / double_of_nat 40, st).
Proof.
  intros Hlen mean. exact (data_sample_mean_variance_eq st Hlen).
Qed.

(** *** What a run prints *)

Lemma printf_eq (o : Output D) (st : State D) :
  printf o st = (tt, set_out st (out st ++ [o])).
Proof. reflexivity. Qed.

Lemma evidence_estimates_prints (st : State D) :
  wf_state st ->
  wf_state (snd (evidence_estimates st))
  /\ exists o, out (snd (evidence_estimates st)) = out st ++ [o].
Proof.
  intros Hwf. unfold evidence_estimates.
  pose proof Hwf as (Hd & _).
  pose proof (data_prob_1component_bySampling_frame st Hd) as F1.
  rewrite bind_run.
  generalize dependent (snd (data_prob_1component_bySampling st)).
  generalize (fst (data_prob_1component_bySampling st)).
  intros v1 st1 F1.
  assert (Hwf1 : wf_state st1) by (apply (same_but_gen_wf st); assumption).
  pose proof Hwf1 as (Hd1 & _).
  pose proof (data_prob_2component_bySampling_frame st1 Hd1) as F2.
  rewrite bind_run.
  generalize dependent (snd (data_prob_2component_bySampling st1)).
  generalize (fst (data_prob_2component_bySampling st1)).
  intros v2 st2 F2.
  assert (Hwf2 : wf_state st2) by (apply (same_but_gen_wf st1); assumption).
  pose proof (data_prob_1component_bySumming_frame st2 Hwf2) as F3.
  rewrite bind_run.
  generalize dependent (snd (data_prob_1component_bySumming st2)).
  generalize (fst (data_prob_1component_bySumming st2)).
  intros v3 st3 F3. subst st3.
  pose proof (data_prob_2component_bySumming_frame st2 Hwf2) as F4.
  rewrite bind_run.
  generalize dependent (snd (data_prob_2component_bySumming st2)).
  generalize (fst (data_prob_2component_bySumming st2)).
  intros v4 st4 F4. subst st4.
  rewrite bind_run, printf_eq. unfold ret. projections.
  split; [exact Hwf2|].
  exists (OIntegrals v1 v2 v3 v4). cbn [out set_out].
  rewrite (same_but_gen_out _ _ F2), (same_but_gen_out _ _ F1). reflexivity.
Qed.

Lemma trial_1component_prints (st : State D) :
  wf_state st ->
  wf_state (snd (trial_1component st))
  /\ exists o1 o2, out (snd (trial_1component st)) = out st ++ [o1; o2].
Proof.
  intros Hwf. unfold trial_1component.
  pose proof (prior_Gauss_params_sample_frame st) as F.
  rewrite bind_run.
  generalize dependent (snd (prior_Gauss_params_sample st)).
  generalize (fst (prior_Gauss_params_sample st)). intros p st1 F.
  rewrite bind_run, printf_eq. projections.
  rewrite bind_run.
  pose proof (data_generate_1component_frame p
                (set_out st1 (out st1 ++ [OGenerating1 p]))) as G.
  generalize dependent
    (snd (data_generate_1component p (set_out st1 (out st1 ++ [OGenerating1 p])))).
  intros st2 G.
  assert (Hwf2 : wf_state st2).
  { apply (same_tables_wf _ _ G), wf_state_set_out, (same_but_gen_wf st); assumption. }
  destruct (evidence_estimates_prints st2 Hwf2) as (Hwf3 & o & Ho).
  split; [exact Hwf3|].
  exists (OGenerating1 p), o.
  rewrite Ho, (same_tables_out _ _ G). cbn [out set_out].
  rewrite (same_but_gen_out _ _ F), <- app_assoc. reflexivity.
Qed.

Lemma trial_2component_prints (st : State D) :
  wf_state st ->
  wf_state (snd (trial_2component st))
  /\ exists o1 o2, out (snd (trial_2component st)) = out st ++ [o1; o2].
Proof.
  intros Hwf. unfold trial_2component.
  pose proof (prior_Gauss_mixture_params_sample_frame st) as F.
  rewrite bind_run.
  generalize dependent (snd (prior_Gauss_mixture_params_sample st)).
  generalize (fst (prior_Gauss_mixture_params_sample st)). intros p st1 F.
  rewrite bind_run, printf_eq. projections.
  rewrite bind_run.
  pose proof (data_generate_2component_frame p
                (set_out st1 (out st1 ++ [OGenerating2 p]))) as G.
  generalize dependent
    (snd (data_generate_2component p (set_out st1 (out st1 ++ [OGenerating2 p])))).
  intros st2 G.
  assert (Hwf2 : wf_state st2).
  { apply (same_tables_wf _ _ G), wf_state_set_out, (same_but_gen_wf st); assumption. }
  destruct (evidence_estimates_prints st2 Hwf2) as (Hwf3 & o & Ho).
  split; [exact Hwf3|].
  exists (OGenerating2 p), o.
  rewrite Ho, (same_tables_out _ _ G). cbn [out set_out].
  rewrite (same_but_gen_out _ _ F), <- app_assoc. reflexivity.
Qed.

Lemma repeatM_prints {A} (c : M D A) :
  (forall st, wf_state st ->
     wf_state (snd (c st)) /\ exists o1 o2, out (snd (c st)) = out st ++ [o1; o2]) ->
  forall n st, wf_state st ->
    wf_state (snd (repeatM n c st))
    /\ exists t, out (snd (repeatM n c st)) = out st ++ t /\ length t = (2 * n)%nat.
Proof.
  intros Hc. induction n as [|n IH]; intros st Hwf.
  - simpl. split; [exact Hwf|]. exists []. rewrite app_nil_r. split; reflexivity.
  - rewrite repeatM_succ. projections.
    destruct (Hc st Hwf) as (Hwf1 & o1 & o2 & Ho).
    destruct (IH _ Hwf1) as (Hwf2 & t & Ht & Hlen).
    split; [exact Hwf2|].
    exists ([o1; o2] ++ t). rewrite Ht, Ho, <- app_assoc.
    split; [reflexivity|]. rewrite length_app, Hlen. simpl. lia.
Qed.


(** *** The grids are built once *)

Local Abbreviation keeps_tables st st' :=
  (cdfInv_Gauss st' = cdfInv_Gauss st
   /\ cdfInv_gamma st' = cdfInv_gamma st
   /\ cdfInv_JBeta st' = cdfInv_JBeta st).

Lemma same_tables_keeps (st st' : State D) :
  same_tables st st' -> keeps_tables st st'.
Proof. intros (_ & HG & Hg & HB & _). repeat split; assumption. Qed.

Lemma evidence_estimates_keeps_tables (st : State D) :
  wf_state st -> keeps_tables st (snd (evidence_estimates st)).
Proof.
  intros Hwf. unfold evidence_estimates.
  pose proof Hwf as (Hd & _).
  pose proof (data_prob_1component_bySampling_frame st Hd) as F1.
  rewrite bind_run.
  generalize dependent (snd (data_prob_1component_bySampling st)).
  generalize (fst (data_prob_1component_bySampling st)).
  intros v1 st1 F1.
  assert (Hwf1 : wf_state st1) by (apply (same_but_gen_wf st); assumption).
  pose proof Hwf1 as (Hd1 & _).
  pose proof (data_prob_2component_bySampling_frame st1 Hd1) as F2.
  rewrite bind_run.
  generalize dependent (snd (data_prob_2component_bySampling st1)).
  generalize (fst (data_prob_2component_bySampling st1)).
  intros v2 st2 F2.
  assert (Hwf2 : wf_state st2) by (apply (same_but_gen_wf st1); assumption).
  pose proof (data_prob_1component_bySumming_frame st2 Hwf2) as F3.
  rewrite bind_run.
  generalize dependent (snd (data_prob_1component_bySumming st2)).
  generalize (fst (data_prob_1component_bySumming st2)).
  intros v3 st3 F3. subst st3.
  pose proof (data_prob_2component_bySumming_frame st2 Hwf2) as F4.
  rewrite bind_run.
  generalize dependent (snd (data_prob_2component_bySumming st2)).
  generalize (fst (data_prob_2component_bySumming st2)).
  intros v4 st4 F4. subst st4.
  rewrite bind_run, printf_eq. unfold ret. projections.
  cbn [cdfInv_Gauss cdfInv_gamma cdfInv_JBeta set_out].
  destruct (same_tables_keeps _ _ (same_but_gen_same_tables _ _ F1)) as (HG1 & Hg1 & HB1).
  destruct (same_tables_keeps _ _ (same_but_gen_same_tables _ _ F2)) as (HG2 & Hg2 & HB2).
  rewrite HG2, Hg2, HB2, HG1, Hg1, HB1. repeat split.
Qed.

Lemma trial_1component_keeps_tables (st : State D) :
  wf_state st -> keeps_tables st (snd (trial_1component st)).
Proof.
  intros Hwf. unfold trial_1component.
  pose proof (prior_Gauss_params_sample_frame st) as F.
  rewrite bind_run.
  generalize dependent (snd (prior_Gauss_params_sample st)).
  generalize (fst (prior_Gauss_params_sample st)). intros p st1 F.
  rewrite bind_run, printf_eq. projections.
  rewrite bind_run.
  pose proof (data_generate_1component_frame p
                (set_out st1 (out st1 ++ [OGenerating1 p]))) as G.
  generalize dependent
    (snd (data_generate_1component p (set_out st1 (out st1 ++ [OGenerating1 p])))).
  intros st2 G.
  assert (Hwf2 : wf_state st2).
  { apply (same_tables_wf _ _ G), wf_state_set_out, (same_but_gen_wf st); assumption. }
  destruct (evidence_estimates_keeps_tables st2 Hwf2) as (HG3 & Hg3 & HB3).
  destruct (same_tables_keeps _ _ G) as (HG2 & Hg2 & HB2).
  destruct (same_tables_keeps _ _ (same_but_gen_same_tables _ _ F)) as (HG1 & Hg1 & HB1).
  cbn [cdfInv_Gauss cdfInv_gamma cdfInv_JBeta set_out] in HG2, Hg2, HB2.
  rewrite HG3, Hg3, HB3, HG2, Hg2, HB2, HG1, Hg1, HB1. repeat split.
Qed.

Lemma trial_2component_keeps_tables (st : State D) :
  wf_state st -> keeps_tables st (snd (trial_2component st)).
Proof.
  intros Hwf. unfold trial_2component.
  pose proof (prior_Gauss_mixture_params_sample_frame st) as F.
  rewrite bind_run.
  generalize dependent (snd (prior_Gauss_mixture_params_sample st)).
  generalize (fst (prior_Gauss_mixture_params_sample st)). intros p st1 F.
  rewrite bind_run, printf_eq. projections.
  rewrite bind_run.
  pose proof (data_generate_2component_frame p
                (set_out st1 (out st1 ++ [OGenerating2 p]))) as G.
  generalize dependent
    (snd (data_generate_2component p (set_out st1 (out st1 ++ [OGenerating2 p])))).
  intros st2 G.
  assert (Hwf2 : wf_state st2).
  { apply (same_tables_wf _ _ G), wf_state_set_out, (same_but_gen_wf st); assumption. }
  destruct (evidence_estimates_keeps_tables st2 Hwf2) as (HG3 & Hg3 & HB3).
  destruct (same_tables_keeps _ _ G) as (HG2 & Hg2 & HB2).
  destruct (same_tables_keeps _ _ (same_but_gen_same_tables _ _ F)) as (HG1 & Hg1 & HB1).
  cbn [cdfInv_Gauss cdfInv_gamma cdfInv_JBeta set_out] in HG2, Hg2, HB2.
  rewrite HG3, Hg3, HB3, HG2, Hg2, HB2, HG1, Hg1, HB1. repeat split.
Qed.

Lemma repeatM_keeps_tables {A} (c : M D A) :
  (forall st, wf_state st -> wf_state (snd (c st))) ->
  (forall st, wf_state st -> keeps_tables st (snd (c st))) ->
  forall n st, wf_state st -> keeps_tables st (snd (repeatM n c st)).
Proof.
  intros Hwfc Hc. induction n as [|n IH]; intros st Hwf.
  - simpl. repeat split.
  - rewrite repeatM_succ. projections.
    destruct (Hc st Hwf) as (HG & Hg & HB).
    destruct (IH _ (Hwfc st Hwf)) as (HG' & Hg' & HB').
    rewrite HG', Hg', HB', HG, Hg, HB. repeat split.
Qed.

(** X16: the three tables are written by [cdfInv_precompute] at the start of
    a run and by nothing else: whatever the number of trials already run in
    either loop, and at the end of the run, they hold what
    [cdfInv_precompute] stored.  Every trial is therefore integrated over the
    same grids. *)
Theorem grids_are_built_once (datasets_n : N) (st : State D) (k1 k2 : nat) :
  wf_state st -> (datasets_n < uint_modulus)%N ->
  let built := snd (cdfInv_precompute st) in
  let start := snd (main_prologue datasets_n st) in
  let loop1 := fun k => snd (repeatM k trial_1component start) in
  let loop2 := fun k =>
    snd (repeatM k trial_2component
           (snd (printf (OHeader DIFFER) (loop1 (N.to_nat datasets_n))))) in
  (cdfInv_Gauss (loop1 k1) = cdfInv_Gauss built
   /\ cdfInv_gamma (loop1 k1) = cdfInv_gamma built
   /\ cdfInv_JBeta (loop1 k1) = cdfInv_JBeta built)
  /\ (cdfInv_Gauss (loop2 k2) = cdfInv_Gauss built
      /\ cdfInv_gamma (loop2 k2) = cdfInv_gamma built
      /\ cdfInv_JBeta (loop2 k2) = cdfInv_JBeta built)
  /\ (cdfInv_Gauss (snd (main_body datasets_n st)) = cdfInv_Gauss built
      /\ cdfInv_gamma (snd (main_body datasets_n st)) = cdfInv_gamma built
      /\ cdfInv_JBeta (snd (main_body datasets_n st)) = cdfInv_JBeta built).
Proof.
  intros Hwf Hn built start loop1 loop2.
  assert (Hkeep1 : forall k st0, wf_state st0 ->
            wf_state (snd (repeatM k trial_1component st0))
            /\ keeps_tables st0 (snd (repeatM k trial_1component st0))).
  { intros k st0 Hwf0. split.
    - apply (repeatM_prints trial_1component trial_1component_prints k st0 Hwf0).
    - apply repeatM_keeps_tables; [|exact trial_1component_keeps_tables|exact Hwf0].
      intros st1 Hwf1. apply (trial_1component_prints st1 Hwf1). }
  assert (Hkeep2 : forall k st0, wf_state st0 ->
            keeps_tables st0 (snd (repeatM k trial_2component st0))).
  { intros k st0 Hwf0.
    apply repeatM_keeps_tables; [|exact trial_2component_keeps_tables|exact Hwf0].
    intros st1 Hwf1. apply (trial_2component_prints st1 Hwf1). }
  assert (Hstart : wf_state start /\ keeps_tables built start).
  { split; [apply main_prologue_wf; exact Hwf|].
    unfold start, built.
    rewrite (main_prologue_eq datasets_n st Hwf), (cdfInv_precompute_eq st Hwf).
    repeat split. }
  destruct Hstart as (Hwfs & HGs & Hgs & HBs).
  assert (H1 : forall k, wf_state (loop1 k) /\ keeps_tables built (loop1 k)).
  { intros k. unfold loop1. destruct (Hkeep1 k start Hwfs) as (Hwf1 & HG & Hg & HB).
    split; [exact Hwf1|]. rewrite HG, Hg, HB.
    split; [exact HGs|split; [exact Hgs|exact HBs]]. }
  assert (H2 : forall k, keeps_tables built (loop2 k)).
  { intros k. unfold loop2.
    destruct (H1 (N.to_nat datasets_n)) as (Hwf1 & HG1 & Hg1 & HB1).
    rewrite printf_eq. projections.
    destruct (Hkeep2 k _ (wf_state_set_out _ (out (loop1 (N.to_nat datasets_n))
                                               ++ [OHeader DIFFER]) Hwf1))
      as (HG & Hg & HB).
    rewrite HG, Hg, HB. cbn [cdfInv_Gauss cdfInv_gamma cdfInv_JBeta set_out].
    split; [exact HG1|split; [exact Hg1|exact HB1]]. }
  split; [apply H1|]. split; [apply H2|].
  pose proof (main_body_eq datasets_n st Hn) as E. cbv zeta in E. rewrite E.
  projections. cbn [cdfInv_Gauss cdfInv_gamma cdfInv_JBeta set_out].
  exact (H2 (N.to_nat datasets_n)).
Qed.

End MoreOfTheProgram.

(** ** The command line and the shape of the output *)

Lemma uint_of_int_range (z : Z) : (uint_of_int z < uint_modulus)%N.
Proof.
  unfold uint_of_int, uint_modulus.
  pose proof (Z.mod_pos_bound z (Z.of_N 4294967296) eq_refl). lia.
Qed.

Lemma parse_args_range (argv : list string) (datasets_n : N) :
  parse_args argv = Proceed datasets_n ->
  (0 < datasets_n < uint_modulus)%N.
Proof.
  destruct argv as [|prog [|arg [|arg2 rest]]]; cbn [parse_args hd];
    try discriminate.
  - intros [= <-]. split; reflexivity.
  - destruct (uint_of_int (atoi arg) =? 0)%N eqn:Hz; [discriminate|].
    intros [= <-]. apply N.eqb_neq in Hz.
    split; [lia|apply uint_of_int_range].
Qed.

Section Output.

Context {D : Type} {ops : DoubleOps D} {gsl : GSLfun D}.

Lemma init_state_wf_any : wf_state (D := D) init_state.
Proof.
  unfold wf_state, init_state. cbn [data cdfInv_Gauss cdfInv_gamma cdfInv_JBeta].
  rewrite !repeat_length. repeat split.
Qed.

(** X6: a run that is not a usage error ends with status 0 and prints, in
    this order: the announcement and the first header; two lines per
    one-component trial; the second header; two lines per two-component trial;
    the four result lines.  Each result line reports a count between 0 and the
    number of trials out of that number: the unsigned subtraction that
    computes the two-component counts never wraps around. *)
Theorem main_output_shape (argv : list string) (datasets_n : N) :
  parse_args argv = Proceed datasets_n ->
  exists (trials1 trials2 : list (Output D)) (c1 c2 c3 c4 : N),
    main argv
    = (0%Z,
       [OStarting (int_of_uint datasets_n); OHeader POOLED] ++ trials1 ++
       [OHeader DIFFER] ++ trials2 ++
       [OCorrect BySampling POOLED c1 datasets_n;
        OCorrect BySampling DIFFER c2 datasets_n;
        OCorrect BySumming POOLED c3 datasets_n;
        OCorrect BySumming DIFFER c4 datasets_n])
    /\ length trials1 = (2 * N.to_nat datasets_n)%nat
    /\ length trials2 = (2 * N.to_nat datasets_n)%nat
    /\ (c1 <= datasets_n /\ c2 <= datasets_n /\ c3 <= datasets_n /\ c4 <= datasets_n)%N.
Proof.
  intros Hparse.
  destruct (parse_args_range argv datasets_n Hparse) as [_ Hn].
  rewrite (main_proceeds argv datasets_n Hparse).
  pose proof (main_body_eq datasets_n (init_state (D := D)) Hn) as E.
  cbv zeta in E. rewrite E. clear E. projections.
  pose proof (main_prologue_wf datasets_n (init_state (D := D)) init_state_wf_any)
    as Hwf0.
  assert (Hout0 : out (snd (main_prologue datasets_n (init_state (D := D))))
                  = [OStarting (int_of_uint datasets_n); OHeader POOLED]).
  { rewrite (main_prologue_eq datasets_n _ init_state_wf_any). reflexivity. }
  generalize dependent (snd (main_prologue datasets_n (init_state (D := D)))).
  intros st0 Hwf0 Hout0.
  destruct (repeatM_prints trial_1component trial_1component_prints
              (N.to_nat datasets_n) st0 Hwf0) as (Hwf1 & t1 & Ht1 & Hlen1).
  pose proof (length_repeatM trial_1component (N.to_nat datasets_n) st0) as Hn1.
  generalize dependent (repeatM (N.to_nat datasets_n) trial_1component st0).
  intros [es1 st1]. cbn [fst snd]. intros Hwf1 Ht1 Hn1.
  rewrite printf_eq. projections.
  pose proof (wf_state_set_out st1 (out st1 ++ [OHeader DIFFER]) Hwf1) as Hwf1'.
  destruct (repeatM_prints trial_2component trial_2component_prints
              (N.to_nat datasets_n) _ Hwf1') as (Hwf2 & t2 & Ht2 & Hlen2).
  pose proof (length_repeatM trial_2component (N.to_nat datasets_n)
                (set_out st1 (out st1 ++ [OHeader DIFFER]))) as Hn2.
  generalize dependent
    (repeatM (N.to_nat datasets_n) trial_2component
       (set_out st1 (out st1 ++ [OHeader DIFFER]))).
  intros [es2 st2]. cbn [fst snd]. intros Hwf2 Ht2 Hn2.
  exists t1, t2.
  exists (count_trials (recorded_correct POOLED BySampling) es1),
         (count_trials (recorded_correct DIFFER BySampling) es2),
         (count_trials (recorded_correct POOLED BySumming) es1),
         (count_trials (recorded_correct DIFFER BySumming) es2).
  split.
  { cbn [out set_out]. rewrite Ht2. cbn [out set_out]. rewrite Ht1, Hout0.
    rewrite <- !app_assoc. reflexivity. }
  split; [exact Hlen1|]. split; [exact Hlen2|].
  pose proof (count_trials_le (recorded_correct POOLED BySampling) es1).
  pose proof (count_trials_le (recorded_correct DIFFER BySampling) es2).
  pose proof (count_trials_le (recorded_correct POOLED BySumming) es1).
  pose proof (count_trials_le (recorded_correct DIFFER BySumming) es2).
  rewrite Hn1 in *. rewrite Hn2 in *. rewrite N2Nat.id in *.
  repeat split; assumption.
Qed.

End Output.

(** ** Properties in exact arithmetic *)

Section RealProperties.

Context {gsl : GSLfun R}.

Local Open Scope R_scope.

Lemma dlt_R (x y : R) : dlt x y = true <-> x < y.
Proof.
  cbn [dlt R_DoubleOps]. destruct (Rlt_dec x y) as [H|H]; split; intros H';
    try reflexivity; try assumption; try discriminate; contradiction.
Qed.

Lemma dlt_R_false (x y : R) : dlt x y = false <-> y <= x.
Proof.
  cbn [dlt R_DoubleOps]. destruct (Rlt_dec x y) as [H|H]; split; intros H';
    try reflexivity; try discriminate; lra.
Qed.

(** X7: with uniform deviates in [0, 1), a mixing weight of 0 or less makes
    [data_generate_2component] draw every observation from component 2, and a
    mixing weight of 1 or more makes it draw every observation from
    component 1; the uniform deviate is drawn all the same. *)
Theorem data_generate_2component_degenerate
    (w : R) (g1 g2 : Gauss_params R) (st : State R) :
  length (data st) = 40%nat ->
  (forall g, 0 <= fst (gsl_ran_flat01 g) < 1) ->
  (w <= 0 ->
   data_generate_2component (mkMixture w g1 g2) st
   = (tt, set_data
            (snd (repeatM 40 (u <- draw gsl_ran_flat01 ;;
                              draw (GSLfun_ran_gaussian g2)) st))
            (fst (repeatM 40 (u <- draw gsl_ran_flat01 ;;
                              draw (GSLfun_ran_gaussian g2)) st))))
  /\ (1 <= w ->
      data_generate_2component (mkMixture w g1 g2) st
      = (tt, set_data
               (snd (repeatM 40 (u <- draw gsl_ran_flat01 ;;
                                 draw (GSLfun_ran_gaussian g1)) st))
               (fst (repeatM 40 (u <- draw gsl_ran_flat01 ;;
                                 draw (GSLfun_ran_gaussian g1)) st)))).
Proof.
  intros Hlen Hflat.
  pose proof (data_generate_2component_draws (mkMixture w g1 g2) st Hlen) as E.
  split; intros Hw; rewrite E.
  - rewrite (repeatM_pointwise (mixture_draw (mkMixture w g1 g2))
               (u <- draw gsl_ran_flat01 ;; draw (GSLfun_ran_gaussian g2)));
      [reflexivity|].
    intros st'. unfold mixture_draw. rewrite !bind_run. cbn [mixCof Gauss1 Gauss2].
    rewrite fst_draw. destruct (Hflat (gen st')) as [H0 H1].
    replace (dlt (fst (gsl_ran_flat01 (gen st'))) w) with false; [reflexivity|].
    symmetry. apply dlt_R_false. lra.
  - rewrite (repeatM_pointwise (mixture_draw (mkMixture w g1 g2))
               (u <- draw gsl_ran_flat01 ;; draw (GSLfun_ran_gaussian g1)));
      [reflexivity|].
    intros st'. unfold mixture_draw. rewrite !bind_run. cbn [mixCof Gauss1 Gauss2].
    rewrite fst_draw. destruct (Hflat (gen st')) as [H0 H1].
    replace (dlt (fst (gsl_ran_flat01 (gen st'))) w) with true; [reflexivity|].
    symmetry. apply dlt_R. lra.
Qed.

(** *** The grids are ordered *)

Lemma sigma_of_precision_decreasing (p q : R) :
  0 < p -> p < q -> sigma_of_precision q < sigma_of_precision p.
Proof.
  intros Hp Hpq. rewrite !sigma_of_precision_R. unfold Rdiv. rewrite !Rmult_1_l.
  apply Rinv_0_lt_contravar.
  - apply sqrt_lt_R0. exact Hp.
  - apply sqrt_lt_1; lra.
Qed.

Lemma scaled_index_lt (i j : nat) (a d : R) :
  (i < j)%nat -> 0 < d -> (INR i + a) / d < (INR j + a) / d.
Proof.
  intros Hij Hd. apply lt_INR in Hij.
  apply Rmult_lt_compat_r; [apply Rinv_0_lt_compat; exact Hd|lra].
Qed.

(** X8: when the quantile functions are increasing, the grids are ordered:
    the mean grid is strictly increasing; the precision grid is strictly
    increasing from its second node on, so the scale grid, its image under
    1/sqrt, is strictly decreasing there; the weight grid is
    non-decreasing. *)
Theorem grids_are_ordered (st : State R) :
  wf_state st ->
  (forall x y s, 0 < x < y -> y < 1 ->
     gsl_cdf_gaussian_Pinv x s < gsl_cdf_gaussian_Pinv y s) ->
  (forall x y a b, 0 < x < y -> y < 1 ->
     0 < gsl_cdf_gamma_Pinv x a b < gsl_cdf_gamma_Pinv y a b) ->
  (forall x y a b, 0 <= x <= y -> y < 1 ->
     gsl_cdf_beta_Pinv x a b <= gsl_cdf_beta_Pinv y a b) ->
  let st' := snd (cdfInv_precompute st) in
  (forall i j, (i < j < 20)%nat ->
     nth i (cdfInv_Gauss st') 0 < nth j (cdfInv_Gauss st') 0)
  /\ (forall i j, (1 <= i < j)%nat -> (j < 10)%nat ->
        nth i (cdfInv_gamma st') 0 < nth j (cdfInv_gamma st') 0
        /\ nth j (scale_grid st') 0 < nth i (scale_grid st') 0)
  /\ (forall i j, (i <= j < 40)%nat ->
        nth i (cdfInv_JBeta st') 0 <= nth j (cdfInv_JBeta st') 0).
Proof.
  intros Hwf HG Hg HB st'.
  pose proof (cdfInv_precompute_eq st Hwf) as E.
  assert (EG : cdfInv_Gauss st' = Gauss_quantiles) by (unfold st'; rewrite E; reflexivity).
  assert (Eg : cdfInv_gamma st' = gamma_quantiles) by (unfold st'; rewrite E; reflexivity).
  assert (EB : cdfInv_JBeta st' = JBeta_quantiles) by (unfold st'; rewrite E; reflexivity).
  split; [|split].
  - intros i j [Hij Hj]. rewrite EG, Gauss_quantiles_R, !nth_map_seq by lia.
    destruct (INR_below i 20) as [Hi0 _]; [lia|].
    destruct (INR_below j 20 Hj) as [_ Hj1]. simpl INR in Hj1.
    apply HG.
    + split; [apply Rdiv_lt_0_compat; lra|]. apply scaled_index_lt; [exact Hij|lra].
    + apply (Rmult_lt_reg_r 21); [lra|]. field_simplify; lra.
  - intros i j [Hi Hij] Hj. unfold scale_grid.
    rewrite Eg, gamma_quantiles_R, map_map, !nth_map_seq by lia.
    assert (1 <= INR i) by (apply (le_INR 1); exact Hi).
    destruct (INR_below j 10 Hj) as [_ Hj1]. simpl INR in Hj1.
    pose proof (scaled_index_lt i j 0 10 Hij ltac:(lra)) as Hlt.
    rewrite !Rplus_0_r in Hlt.
    destruct (Hg (INR i / 10) (INR j / 10) (/ 2) 2) as [Hpos Hinc].
    + split; [apply Rdiv_lt_0_compat; lra|exact Hlt].
    + apply (Rmult_lt_reg_r 10); [lra|]. field_simplify; lra.
    + split; [exact Hinc|].
      apply sigma_of_precision_decreasing; assumption.
  - intros i j [Hij Hj]. rewrite EB, JBeta_quantiles_R, !nth_map_seq by lia.
    destruct (INR_below i 40) as [Hi0 _]; [lia|].
    destruct (INR_below j 40 Hj) as [_ Hj1]. simpl INR in Hj1.
    apply le_INR in Hij.
    apply HB.
    + split; [apply Rle_mult_inv_pos; lra|].
      apply Rmult_le_compat_r; [lra|lra].
    + apply (Rmult_lt_reg_r 40); [lra|]. field_simplify; lra.
Qed.

(** *** The estimates are not negative *)

Lemma fold_left_product_nonneg {X} (f : X -> R) (xs : list X) (a : R) :
  (forall x, 0 <= f x) -> 0 <= a -> 0 <= fold_left (fun prob x => (prob * f x)%D) xs a.
Proof.
  intros Hf. revert a. induction xs as [|x xs IH]; intros a Ha; simpl; [exact Ha|].
  apply IH. apply Rmult_le_pos; [exact Ha|apply Hf].
Qed.

Lemma total_nonneg {P} (f : P -> R) (cells : list P) :
  Forall (fun c => 0 <= f c) cells -> 0 <= total f cells.
Proof.
  unfold total. intros Hf.
  assert (forall a, 0 <= a -> 0 <= fold_left (fun acc c => (acc + f c)%D) cells a) as H.
  { induction Hf as [|c cells Hc _ IH]; intros a Ha; simpl; [exact Ha|].
    apply IH. cbn [dadd R_DoubleOps]. lra. }
  apply H. cbn [d0 R_DoubleOps]. lra.
Qed.

Lemma repeatM_Forall {A} (c : M R A) (P : A -> Prop) :
  (forall st, P (fst (c st))) ->
  forall n st, Forall P (fst (repeatM n c st)).
Proof.
  intros Hc. induction n as [|n IH]; intros st.
  - simpl. constructor.
  - rewrite repeatM_succ. projections. constructor; [apply Hc|apply IH].
Qed.

Lemma div_nonneg (x y : R) : 0 <= x -> 0 < y -> 0 <= (x / y)%D.
Proof.
  intros Hx Hy. cbn [ddiv R_DoubleOps]. apply Rle_mult_inv_pos; assumption.
Qed.

Section NonNegative.

Hypothesis pdf_nonneg : forall x p, 0 <= GSLfun_ran_gaussian_pdf x p.

Lemma likelihood_1component_nonneg (xs : list R) (p : Gauss_params R) :
  0 <= likelihood_1component xs p.
Proof.
  unfold likelihood_1component. apply fold_left_product_nonneg.
  - intros x. apply pdf_nonneg.
  - cbn [d1 R_DoubleOps]. lra.
Qed.

Lemma mixture_nonneg (w d d' : R) : 0 <= w <= 1 -> 0 <= d -> 0 <= d' ->
  0 <= w * d + (1 - w) * d'.
Proof. intros Hw Hd Hd'. nra. Qed.

Lemma likelihood_2component_nonneg (xs : list R) (p : Gauss_mixture_params R) :
  0 <= mixCof p <= 1 -> 0 <= likelihood_2component xs p.
Proof.
  intros Hw. unfold likelihood_2component. apply fold_left_product_nonneg.
  - intros x. unfold mixture_pdf. cbn [dadd dmul dsub d1 R_DoubleOps].
    apply mixture_nonneg; [exact Hw|apply pdf_nonneg|apply pdf_nonneg].
  - cbn [d1 R_DoubleOps]. lra.
Qed.

Lemma likelihood_2component_bySampling_nonneg
    (xs : list R) (p : Gauss_mixture_params R) :
  0 <= mixCof p <= 1 -> 0 <= likelihood_2component_bySampling xs p.
Proof.
  intros Hw. unfold likelihood_2component_bySampling. apply fold_left_product_nonneg.
  - intros x. unfold newProb_bySampling. cbn [dadd dmul dsub d1 R_DoubleOps].
    rewrite Rplus_comm.
    apply mixture_nonneg; [exact Hw|apply pdf_nonneg|apply pdf_nonneg].
  - cbn [d1 R_DoubleOps]. lra.
Qed.

Lemma estimates_nonneg (st : State R) :
  wf_state st ->
  (forall x a b, 0 <= x < / 2 -> 0 <= gsl_cdf_beta_Pinv x a b <= 1) ->
  (forall g, 0 <= fst (GSLfun_ran_beta_Jeffreys g) <= 1) ->
  0 <= fst (data_prob_1component_bySumming (snd (cdfInv_precompute st)))
  /\ 0 <= fst (data_prob_2component_bySumming (snd (cdfInv_precompute st)))
  /\ 0 <= fst (data_prob_1component_bySampling (snd (cdfInv_precompute st)))
  /\ 0 <= fst (data_prob_2component_bySampling (snd (cdfInv_precompute st))).
Proof.
  intros Hwf Hbeta Hran.
  pose proof (cdfInv_precompute_wf st Hwf) as Hwf'.
  pose proof (cdfInv_precompute_eq st Hwf) as E.
  assert (EB : cdfInv_JBeta (snd (cdfInv_precompute st)) = JBeta_quantiles)
    by (rewrite E; reflexivity).
  clear E. generalize dependent (snd (cdfInv_precompute st)). intros st' Hwf' EB.
  pose proof Hwf' as (Hd & _).
  split; [|split; [|split]].
  - rewrite_with (data_prob_1component_bySumming_eq st' Hwf'). projections.
    apply div_nonneg.
    + apply total_nonneg, List.Forall_forall. intros c _.
      apply likelihood_1component_nonneg.
    + unfold cdf_Gauss_n, cdf_gamma_n. rewrite !double_of_nat_R.
      cbn [dmul R_DoubleOps]. unfold CDF_GAUSS_N, CDF_GAMMA_N. simpl INR. lra.
  - rewrite_with (data_prob_2component_bySumming_eq st' Hwf'). projections.
    apply div_nonneg.
    + apply total_nonneg, List.Forall_forall. intros c Hc.
      apply likelihood_2component_nonneg.
      unfold cells_2component in Hc. apply in_map_iff in Hc.
      destruct Hc as ([m1 [m2 [s1 [s2 w]]]] & <- & Hin). cbn [mixCof].
      apply in_prod_iff in Hin. destruct Hin as [_ Hin].
      apply in_prod_iff in Hin. destruct Hin as [_ Hin].
      apply in_prod_iff in Hin. destruct Hin as [_ Hin].
      apply in_prod_iff in Hin. destruct Hin as [_ Hin].
      unfold weight_grid in Hin. rewrite EB, JBeta_quantiles_R in Hin.
      apply in_map_iff in Hin. destruct Hin as (i & <- & Hi).
      apply in_seq in Hi. apply Hbeta.
      destruct (INR_below i 40) as [H0 H1]; [lia|]. simpl INR in H1.
      split; [apply Rle_mult_inv_pos; lra|].
      apply (Rmult_lt_reg_r 40); [lra|]. field_simplify; lra.
    + unfold cdf_Gauss_n, cdf_gamma_n, cdf_JBeta_n. rewrite !double_of_nat_R.
      cbn [dmul R_DoubleOps]. unfold CDF_GAUSS_N, CDF_GAMMA_N, CDF_JBETA_N.
      simpl INR. lra.
  - rewrite_with (data_prob_1component_bySampling_eq st' Hd). projections.
    apply div_nonneg.
    + apply total_nonneg, List.Forall_forall. intros c _.
      apply likelihood_1component_nonneg.
    + cbn [double_of_uint R_DoubleOps]. apply IZR_lt. reflexivity.
  - rewrite_with (data_prob_2component_bySampling_eq st' Hd). projections.
    apply div_nonneg.
    + apply total_nonneg.
      eapply List.Forall_impl;
        [|apply (repeatM_Forall prior_Gauss_mixture_params_sample
                   (fun p => 0 <= mixCof p <= 1))].
      * intros p Hp. apply likelihood_2component_bySampling_nonneg. exact Hp.
      * intros st0. unfold prior_Gauss_mixture_params_sample.
        rewrite !bind_run. unfold ret. projections. cbn [mixCof].
        rewrite fst_draw. apply Hran.
    + cbn [double_of_uint R_DoubleOps]. apply IZR_lt. reflexivity.
Qed.

End NonNegative.

(** X9: when the density is never negative, the Beta quantiles of
    probabilities in [0, 0.5) and the Beta deviates lie in [0, 1], all four
    evidence estimates computed on the grids of [cdfInv_precompute] are
    greater than or equal to 0. *)
Theorem evidence_estimates_are_nonnegative (st : State R) :
  wf_state st ->
  (forall x p, 0 <= GSLfun_ran_gaussian_pdf x p) ->
  (forall x a b, 0 <= x < / 2 -> 0 <= gsl_cdf_beta_Pinv x a b <= 1) ->
  (forall g, 0 <= fst (GSLfun_ran_beta_Jeffreys g) <= 1) ->
  0 <= fst (data_prob_1component_bySumming (snd (cdfInv_precompute st)))
  /\ 0 <= fst (data_prob_2component_bySumming (snd (cdfInv_precompute st)))
  /\ 0 <= fst (data_prob_1component_bySampling (snd (cdfInv_precompute st)))
  /\ 0 <= fst (data_prob_2component_bySampling (snd (cdfInv_precompute st))).
Proof.
  intros Hwf Hpdf Hbeta Hran. exact (estimates_nonneg Hpdf st Hwf Hbeta Hran).
Qed.


(** *** The comparison function *)

(** X12: on real numbers [CMPdata] decides the order: it returns -1 exactly
    when the first argument is smaller, +1 exactly when it is greater and 0
    exactly when the two are equal; swapping the arguments negates the
    result. *)
Theorem CMPdata_decides_the_order (a b : R) :
  (CMPdata a b = (-1)%Z <-> a < b)
  /\ (CMPdata a b = 0%Z <-> a = b)
  /\ (CMPdata a b = 1%Z <-> b < a)
  /\ CMPdata b a = (- CMPdata a b)%Z.
Proof.
  unfold CMPdata.
  destruct (dlt a b) eqn:Hab; destruct (dlt b a) eqn:Hba;
    try apply dlt_R in Hab; try apply dlt_R in Hba;
    try apply dlt_R_false in Hab; try apply dlt_R_false in Hba;
    repeat split; intros; try reflexivity; try discriminate; try lra.
Qed.

End RealProperties.

(** ** Decimal arguments *)

Lemma digit_of_digits :
  digit_of "0" = Some 0%Z /\ digit_of "1" = Some 1%Z /\ digit_of "2" = Some 2%Z
  /\ digit_of "3" = Some 3%Z /\ digit_of "4" = Some 4%Z /\ digit_of "5" = Some 5%Z
  /\ digit_of "6" = Some 6%Z /\ digit_of "7" = Some 7%Z /\ digit_of "8" = Some 8%Z
  /\ digit_of "9" = Some 9%Z.
Proof. repeat split. Qed.

Ltac rewrite_digit :=
  let H := fresh in
  pose proof digit_of_digits as H;
  destruct H as (?E & ?E & ?E & ?E & ?E & ?E & ?E & ?E & ?E & ?E);
  match goal with
  | E : digit_of ?c = _ |- context [digit_of ?c] => rewrite E
  end.

Lemma digits_value_decimal_acc (d : Decimal.uint) (p : positive) :
  digits_value (NilEmpty.string_of_uint d) (Zpos p) = Zpos (Pos.of_uint_acc d p).
Proof.
  revert p. induction d as [|d IH|d IH|d IH|d IH|d IH|d IH|d IH|d IH|d IH|d IH];
    intros p; cbn [NilEmpty.string_of_uint digits_value Pos.of_uint_acc];
    [reflexivity|..];
    rewrite_digit;
    match goal with
    | |- digits_value _ ?z = Zpos (Pos.of_uint_acc _ ?q) =>
        replace z with (Zpos q) by lia
    end; apply IH.
Qed.

Lemma digits_value_decimal (d : Decimal.uint) :
  digits_value (NilEmpty.string_of_uint d) 0 = Z.of_N (Pos.of_uint d).
Proof.
  induction d as [|d IH|d IH|d IH|d IH|d IH|d IH|d IH|d IH|d IH|d IH];
    cbn [NilEmpty.string_of_uint digits_value Pos.of_uint];
    [reflexivity|exact IH|..];
    rewrite_digit; cbn [Z.of_N];
    match goal with
    | |- digits_value _ ?z = Zpos (Pos.of_uint_acc _ ?q) =>
        change z with (Zpos q)
    end; apply digits_value_decimal_acc.
Qed.

Lemma strtol_decimal (d : Decimal.uint) :
  strtol (NilEmpty.string_of_uint d)
  = Z.max LONG_MIN (Z.min LONG_MAX (Z.of_N (Pos.of_uint d))).
Proof.
  rewrite <- digits_value_decimal. destruct d; reflexivity.
Qed.

Lemma atoi_decimal (n : N) :
  (n < 2147483648)%N -> atoi (NilEmpty.string_of_uint (N.to_uint n)) = Z.of_N n.
Proof.
  intros Hn. unfold atoi. rewrite strtol_decimal.
  change (Pos.of_uint (N.to_uint n)) with (N.of_uint (N.to_uint n)).
  rewrite DecimalN.Unsigned.of_to.
  unfold LONG_MIN, LONG_MAX, int_of_long.
  rewrite Z.min_r, Z.max_r by lia.
  rewrite Z.mod_small by lia. lia.
Qed.

(** X14: the decimal numeral of a number of trials between 1 and [INT_MAX],
    given as the only argument, is read back as that number: the driver runs
    exactly that many trials of each model. *)
Theorem parse_args_decimal (prog : string) (n : N) :
  (0 < n < 2147483648)%N ->
  parse_args [prog; NilEmpty.string_of_uint (N.to_uint n)] = Proceed n.
Proof.
  intros [Hpos Hmax]. cbn [parse_args].
  rewrite atoi_decimal by exact Hmax.
  assert (E : uint_of_int (Z.of_N n) = n).
  { unfold uint_of_int, uint_modulus. rewrite Z.mod_small by lia. apply N2Z.id. }
  rewrite E. destruct (N.eqb_spec n 0) as [->|_]; [lia|reflexivity].
Qed.

(** ** The comparison function on binary64 *)

Lemma SFcompare_nan_r (x : SpecFloat.spec_float) :
  SpecFloat.SFcompare x SpecFloat.S754_nan = None.
Proof. destruct x as [| [|] | | ]; reflexivity. Qed.

Lemma ltb_nan (x : PrimFloat.float) :
  PrimFloat.ltb PrimFloat.nan x = false /\ PrimFloat.ltb x PrimFloat.nan = false.
Proof.
  rewrite !FloatAxioms.ltb_spec.
  change (FloatOps.Prim2SF PrimFloat.nan) with SpecFloat.S754_nan.
  unfold SpecFloat.SFltb. rewrite SFcompare_nan_r. split; reflexivity.
Qed.

(** X15: on binary64 [CMPdata] returns 0 whenever one argument is a NaN, so
    0 does not mean that the arguments are equal and the comparison is not a
    consistent order: 1 and 2 both compare equal to NaN but not to each
    other. *)
Theorem CMPdata_nan (x : PrimFloat.float) :
  CMPdata PrimFloat.nan x = 0%Z
  /\ CMPdata x PrimFloat.nan = 0%Z
  /\ CMPdata PrimFloat.one PrimFloat.two = (-1)%Z.
Proof.
  unfold CMPdata. cbn [dlt float_DoubleOps].
  destruct (ltb_nan x) as [E1 E2]. rewrite E1, E2.
  repeat split.
Qed.

(** ** Binary64: the sample variance *)

Section Binary64Properties.

Context {gsl : GSLfun PrimFloat.float}.

Lemma total_not_negative {P} (f : P -> PrimFloat.float) (cells : list P) :
  (forall c, PrimFloat.ltb (f c) PrimFloat.zero = false) ->
  PrimFloat.ltb (total f cells) PrimFloat.zero = false.
Proof.
  intros Hf. unfold total.
  assert (H : forall a, PrimFloat.ltb a PrimFloat.zero = false ->
            PrimFloat.ltb (fold_left (fun acc c => (acc + f c)%D) cells a) PrimFloat.zero
            = false).
  { induction cells as [|c cells IH]; intros a Ha; cbn [fold_left]; [exact Ha|].
    apply IH. apply add_not_negative; [exact Ha|apply Hf]. }
  apply H. reflexivity.
Qed.

(** X13: in binary64 [data_sample_variance] never returns a negative number,
    whatever the 40 entries of the data buffer are, infinities and NaN
    included: the comparison of its result with 0 by [<] is false.  (The
    result can be +infinity or NaN.) *)
Theorem data_sample_variance_not_negative (st : State PrimFloat.float) :
  length (data st) = 40%nat ->
  PrimFloat.ltb (fst (data_sample_variance st)) PrimFloat.zero = false.
Proof.
  intros Hlen.
  destruct (data_sample_mean_variance_eq st Hlen) as [_ Ev].
  rewrite Ev. projections.
  apply div_not_negative; [reflexivity|reflexivity|].
  apply total_not_negative. intros x. apply square_not_negative.
Qed.

End Binary64Properties.

(** ** The properties above at the initial state of the program *)

Section MoreInstances.

Local Existing Instance gsl_double.

Local Open Scope R_scope.

(** The theorems of this part that have hypotheses, applied to the program
    run in exact arithmetic against the test double. *)

Lemma gsl_double_flat01 (g : N) :
  0 <= fst (gsl_ran_flat01 (GSLfun := gsl_double (D := R)) g) < 1.
Proof. simpl. lra. Defined.

Lemma gsl_double_gaussian_quantile_increasing (x y s : R) :
  0 < x < y -> y < 1 ->
  gsl_cdf_gaussian_Pinv (GSLfun := gsl_double) x s
  < gsl_cdf_gaussian_Pinv (GSLfun := gsl_double) y s.
Proof. intros [_ H] _. exact H. Defined.

Lemma gsl_double_gamma_quantile_increasing (x y a b : R) :
  0 < x < y -> y < 1 ->
  0 < gsl_cdf_gamma_Pinv (GSLfun := gsl_double) x a b
  < gsl_cdf_gamma_Pinv (GSLfun := gsl_double) y a b.
Proof. intros H _. exact H. Defined.

Lemma gsl_double_beta_quantile_monotone (x y a b : R) :
  0 <= x <= y -> y < 1 ->
  gsl_cdf_beta_Pinv (GSLfun := gsl_double) x a b
  <= gsl_cdf_beta_Pinv (GSLfun := gsl_double) y a b.
Proof. intros [_ H] _. exact H. Defined.

Lemma gsl_double_pdf_nonneg (x : R) (p : Gauss_params R) :
  0 <= GSLfun_ran_gaussian_pdf (GSLfun := gsl_double) x p.
Proof. simpl. lra. Defined.

Lemma gsl_double_beta_quantile_range (x a b : R) :
  0 <= x < / 2 -> 0 <= gsl_cdf_beta_Pinv (GSLfun := gsl_double) x a b <= 1.
Proof. simpl. lra. Defined.

Lemma gsl_double_beta_deviate_range (g : N) :
  0 <= fst (GSLfun_ran_beta_Jeffreys (GSLfun := gsl_double (D := R)) g) <= 1.
Proof. simpl. lra. Defined.

Lemma data_generate_1component_fills_witness :
  let st := init_state (D := R) (gsl := gsl_double) in
  let params := mkGauss 0 1 in
  length (data st) = 40%nat
  /\ (let draws := repeatM 40 (draw (GSLfun_ran_gaussian params)) st in
      data_generate_1component params st = (tt, set_data (snd draws) (fst draws))
      /\ length (fst draws) = 40%nat
      /\ snd draws = set_gen st (gen (snd draws))).
Proof.
  intros st params. split; [reflexivity|].
  exact (data_generate_1component_fills params st eq_refl).
Defined.

Lemma data_generate_2component_fills_witness :
  let st := init_state (D := R) (gsl := gsl_double) in
  let params := mkMixture (/ 2) (mkGauss 0 1) (mkGauss 4 2) in
  length (data st) = 40%nat
  /\ (let draws :=
        repeatM 40
          (u <- draw gsl_ran_flat01 ;;
           draw (GSLfun_ran_gaussian
                   (if dlt u (mixCof params) then Gauss1 params else Gauss2 params))) st in
      data_generate_2component params st = (tt, set_data (snd draws) (fst draws))
      /\ length (fst draws) = 40%nat
      /\ snd draws = set_gen st (gen (snd draws))).
Proof.
  intros st params. split; [reflexivity|].
  exact (data_generate_2component_fills params st eq_refl).
Defined.

Lemma wf_state_after_draws :
  wf_state (set_gen (init_state (D := R) (gsl := gsl_double)) 7%N).
Proof. repeat split. Defined.

Lemma cdfInv_precompute_overwrites_witness :
  let st := init_state (D := R) (gsl := gsl_double) in
  let st' := set_gen st 7%N in
  wf_state st /\ wf_state st'
  /\ (cdfInv_Gauss (snd (cdfInv_precompute st)) = cdfInv_Gauss (snd (cdfInv_precompute st'))
      /\ cdfInv_gamma (snd (cdfInv_precompute st))
         = cdfInv_gamma (snd (cdfInv_precompute st'))
      /\ cdfInv_JBeta (snd (cdfInv_precompute st))
         = cdfInv_JBeta (snd (cdfInv_precompute st'))
      /\ data (snd (cdfInv_precompute st)) = data st
      /\ gen (snd (cdfInv_precompute st)) = gen st
      /\ out (snd (cdfInv_precompute st)) = out st
      /\ cdfInv_precompute (snd (cdfInv_precompute st)) = (tt, snd (cdfInv_precompute st))).
Proof.
  intros st st'. split; [exact init_state_wf_double|].
  split; [exact wf_state_after_draws|].
  exact (cdfInv_precompute_overwrites st st' init_state_wf_double wf_state_after_draws).
Defined.

Lemma data_sample_mean_variance_witness :
  let st := init_state (D := R) (gsl := gsl_double) in
  length (data st) = 40%nat
  /\ (let mean := (total (fun x => x) (data st) / double_of_nat 40)%D in
      data_sample_mean st = (mean, st)
      /\ data_sample_variance st
         = ((total (fun x => (x - mean) * (x - mean)) (data st) / double_of_nat 40)%D, st)).
Proof.
  intros st. split; [reflexivity|].
  exact (data_sample_mean_variance st eq_refl).
Defined.

Lemma main_output_shape_witness :
  let argv := ["Gaussian_poolOrNot"; "3"]%string in
  parse_args argv = Proceed 3
  /\ (exists (trials1 trials2 : list (Output R)) (c1 c2 c3 c4 : N),
        main (D := R) (gsl := gsl_double) argv
        = (0%Z,
           [OStarting (int_of_uint 3); OHeader POOLED] ++ trials1 ++
           [OHeader DIFFER] ++ trials2 ++
           [OCorrect BySampling POOLED c1 3;
            OCorrect BySampling DIFFER c2 3;
            OCorrect BySumming POOLED c3 3;
            OCorrect BySumming DIFFER c4 3])
        /\ length trials1 = (2 * N.to_nat 3)%nat
        /\ length trials2 = (2 * N.to_nat 3)%nat
        /\ (c1 <= 3 /\ c2 <= 3 /\ c3 <= 3 /\ c4 <= 3)%N).
Proof.
  intros argv. split; [reflexivity|].
  exact (main_output_shape (D := R) (gsl := gsl_double) argv 3 eq_refl).
Defined.

Lemma data_generate_2component_degenerate_witness :
  let st := init_state (D := R) (gsl := gsl_double) in
  let g1 := mkGauss 0 1 in
  let g2 := mkGauss 4 2 in
  length (data st) = 40%nat
  /\ (forall g, 0 <= fst (gsl_ran_flat01 g) < 1)
  /\ ((0 <= 0 ->
       data_generate_2component (mkMixture 0 g1 g2) st
       = (tt, set_data
                (snd (repeatM 40 (u <- draw gsl_ran_flat01 ;;
                                  draw (GSLfun_ran_gaussian g2)) st))
                (fst (repeatM 40 (u <- draw gsl_ran_flat01 ;;
                                  draw (GSLfun_ran_gaussian g2)) st))))
      /\ (1 <= 0 ->
          data_generate_2component (mkMixture 0 g1 g2) st
          = (tt, set_data
                   (snd (repeatM 40 (u <- draw gsl_ran_flat01 ;;
                                     draw (GSLfun_ran_gaussian g1)) st))
                   (fst (repeatM 40 (u <- draw gsl_ran_flat01 ;;
                                     draw (GSLfun_ran_gaussian g1)) st))))).
Proof.
  intros st g1 g2. split; [reflexivity|].
  split; [exact gsl_double_flat01|].
  exact (data_generate_2component_degenerate 0 g1 g2 st eq_refl gsl_double_flat01).
Defined.

Lemma grids_are_ordered_witness :
  let st := init_state (D := R) (gsl := gsl_double) in
  wf_state st
  /\ (forall x y s, 0 < x < y -> y < 1 ->
        gsl_cdf_gaussian_Pinv x s < gsl_cdf_gaussian_Pinv y s)
  /\ (forall x y a b, 0 < x < y -> y < 1 ->
        0 < gsl_cdf_gamma_Pinv x a b < gsl_cdf_gamma_Pinv y a b)
  /\ (forall x y a b, 0 <= x <= y -> y < 1 ->
        gsl_cdf_beta_Pinv x a b <= gsl_cdf_beta_Pinv y a b)
  /\ (let st' := snd (cdfInv_precompute st) in
      (forall i j, (i < j < 20)%nat ->
         nth i (cdfInv_Gauss st') 0 < nth j (cdfInv_Gauss st') 0)
      /\ (forall i j, (1 <= i < j)%nat -> (j < 10)%nat ->
            nth i (cdfInv_gamma st') 0 < nth j (cdfInv_gamma st') 0
            /\ nth j (scale_grid st') 0 < nth i (scale_grid st') 0)
      /\ (forall i j, (i <= j < 40)%nat ->
            nth i (cdfInv_JBeta st') 0 <= nth j (cdfInv_JBeta st') 0)).
Proof.
  intros st. split; [exact init_state_wf_double|].
  split; [exact gsl_double_gaussian_quantile_increasing|].
  split; [exact gsl_double_gamma_quantile_increasing|].
  split; [exact gsl_double_beta_quantile_monotone|].
  exact (grids_are_ordered st init_state_wf_double
           gsl_double_gaussian_quantile_increasing
           gsl_double_gamma_quantile_increasing
           gsl_double_beta_quantile_monotone).
Defined.

Lemma evidence_estimates_are_nonnegative_witness :
  let st := init_state (D := R) (gsl := gsl_double) in
  wf_state st
  /\ (forall x p, 0 <= GSLfun_ran_gaussian_pdf x p)
  /\ (forall x a b, 0 <= x < / 2 -> 0 <= gsl_cdf_beta_Pinv x a b <= 1)
  /\ (forall g, 0 <= fst (GSLfun_ran_beta_Jeffreys g) <= 1)
  /\ (0 <= fst (data_prob_1component_bySumming (snd (cdfInv_precompute st)))
      /\ 0 <= fst (data_prob_2component_bySumming (snd (cdfInv_precompute st)))
      /\ 0 <= fst (data_prob_1component_bySampling (snd (cdfInv_precompute st)))
      /\ 0 <= fst (data_prob_2component_bySampling (snd (cdfInv_precompute st)))).
Proof.
  intros st. split; [exact init_state_wf_double|].
  split; [exact gsl_double_pdf_nonneg|].
  split; [exact gsl_double_beta_quantile_range|].
  split; [exact gsl_double_beta_deviate_range|].
  exact (evidence_estimates_are_nonnegative st init_state_wf_double
           gsl_double_pdf_nonneg gsl_double_beta_quantile_range
           gsl_double_beta_deviate_range).
Defined.

Lemma parse_args_decimal_witness :
  (0 < 25 < 2147483648)%N
  /\ parse_args ["Gaussian_poolOrNot"%string; NilEmpty.string_of_uint (N.to_uint 25)]
     = Proceed 25.
Proof.
  split; [split; reflexivity|].
  apply (parse_args_decimal "Gaussian_poolOrNot" 25). split; reflexivity.
Defined.

Lemma grids_are_built_once_witness :
  let st := init_state (D := R) (gsl := gsl_double) in
  let datasets_n := 3%N in
  wf_state st /\ (datasets_n < uint_modulus)%N
  /\ (let built := snd (cdfInv_precompute st) in
      let start := snd (main_prologue datasets_n st) in
      let loop1 := fun k => snd (repeatM k trial_1component start) in
      let loop2 := fun k =>
        snd (repeatM k trial_2component
               (snd (printf (OHeader DIFFER) (loop1 (N.to_nat datasets_n))))) in
      (cdfInv_Gauss (loop1 2%nat) = cdfInv_Gauss built
       /\ cdfInv_gamma (loop1 2%nat) = cdfInv_gamma built
       /\ cdfInv_JBeta (loop1 2%nat) = cdfInv_JBeta built)
      /\ (cdfInv_Gauss (loop2 1%nat) = cdfInv_Gauss built
          /\ cdfInv_gamma (loop2 1%nat) = cdfInv_gamma built
          /\ cdfInv_JBeta (loop2 1%nat) = cdfInv_JBeta built)
      /\ (cdfInv_Gauss (snd (main_body datasets_n st)) = cdfInv_Gauss built
          /\ cdfInv_gamma (snd (main_body datasets_n st)) = cdfInv_gamma built
          /\ cdfInv_JBeta (snd (main_body datasets_n st)) = cdfInv_JBeta built)).
Proof.
  intros st datasets_n. split; [exact init_state_wf_double|].
  split; [reflexivity|].
  exact (grids_are_built_once datasets_n st 2 1 init_state_wf_double eq_refl).
Defined.

Lemma data_sample_variance_not_negative_witness :
  let st := init_state (D := PrimFloat.float) (gsl := gsl_double) in
  length (data st) = 40%nat
  /\ PrimFloat.ltb (fst (data_sample_variance st)) PrimFloat.zero = false.
Proof.
  intros st. split; [reflexivity|].
  exact (data_sample_variance_not_negative st eq_refl).
Defined.

End MoreInstances.
